(** * RequirementsExtractor: the requirement-extraction pipeline

    A shallow embedding of [extract_requirements2.py] and the statements of
    its specification that are settled against it.

    Conventions of the embedding.
    - A Python [str] is a [string]; its characters are the 256 code points
      of Latin-1, and [lower], [isspace] and the character classes of the
      regular expressions follow Python on those code points.
    - A Python [list] is a [list]; the [set] of the Refiner is a [gset].
    - The analysis engine (NLTK's [sent_tokenize], spaCy's [nlp]) is a
      parameter of the pipeline.  Sentence splitting has no error condition;
      the parser may fail, and a failure aborts the whole run, so every
      stage that calls it lives in the [option] monad.
    - A parsed sentence is a record of the attributes the code reads. *)

From Stdlib Require Import Ascii ZArith.
From stdpp Require Import base option list sorting gmap strings.

Local Open Scope Z_scope.

(** ** Python string operations *)

Module Str.

(** [ch.isspace()] on Latin-1: TAB..CR, FS..US, space, NEL, NBSP.  The
    class [\s] of [re] on a [str] pattern is the same set. *)
Definition is_space (c : ascii) : bool :=
  let n := N_of_ascii c in
  ((9 <=? n) && (n <=? 13) || (28 <=? n) && (n <=? 32)
   || (n =? 133) || (n =? 160))%N.

(** [ch.lower()] on Latin-1: A-Z, and the accented capitals but the
    multiplication sign, move up by 32. *)
Definition lower_char (c : ascii) : ascii :=
  let n := N_of_ascii c in
  if ((65 <=? n) && (n <=? 90)
      || (192 <=? n) && (n <=? 222) && negb (n =? 215))%N
  then ascii_of_N (n + 32) else c.

(** [s.lower()] *)
Fixpoint lower (s : string) : string :=
  match s with
  | "" => ""
  | String c s' => String (lower_char c) (lower s')
  end.

(** [s.startswith(p)] *)
Fixpoint startswith (p s : string) : bool :=
  match p, s with
  | "", _ => true
  | String _ _, "" => false
  | String a p', String b s' => Ascii.eqb a b && startswith p' s'
  end.

(** [s.endswith(suf)]: [suf] is [s] itself or a suffix of its tail. *)
Fixpoint endswith (suf s : string) : bool :=
  String.eqb suf s ||
  match s with
  | "" => false
  | String _ s' => endswith suf s'
  end.

(** [needle in hay] *)
Fixpoint contains (needle hay : string) : bool :=
  startswith needle hay ||
  match hay with
  | "" => false
  | String _ hay' => contains needle hay'
  end.

(** [any(k in s for k in keywords)] *)
Definition contains_any (keywords : list string) (s : string) : bool :=
  existsb (λ k, contains k s) keywords.

(** [s.replace(old, new)] for a non-empty [old] (every call site passes a
    non-empty literal): matches are taken leftmost first and do not
    overlap.  [skip] counts the characters of the current match that are
    still to be consumed. *)
Fixpoint replace_go (old new : string) (skip : nat) (s : string) : string :=
  match s with
  | "" => ""
  | String c s' =>
      match skip with
      | S k => replace_go old new k s'
      | O =>
          if startswith old s
          then new +:+ replace_go old new (pred (String.length old)) s'
          else String c (replace_go old new 0 s')
      end
  end.
Definition replace (old new s : string) : string := replace_go old new 0 s.

(** [s.lstrip()], [s.rstrip()], [s.strip()] *)
Fixpoint lstrip (s : string) : string :=
  match s with
  | "" => ""
  | String c s' => if is_space c then lstrip s' else s
  end.
Fixpoint rstrip (s : string) : string :=
  match s with
  | "" => ""
  | String c s' =>
      match rstrip s' with
      | "" => if is_space c then "" else String c ""
      | r => String c r
      end
  end.
Definition strip (s : string) : string := rstrip (lstrip s).

(** [s.split()]: the maximal runs of non-whitespace characters.  [cur] is
    the word being read, reversed. *)
Fixpoint split_go (cur : option string) (s : string) : list string :=
  match s with
  | "" => option_list (String.rev <$> cur)
  | String c s' =>
      if is_space c
      then option_list (String.rev <$> cur) ++ split_go None s'
      else split_go (Some (String c (default "" cur))) s'
  end.
Definition split (s : string) : list string := split_go None s.

(** [re.sub(r'\s+', ' ', s)]: [in_ws] tells that the previous character
    belonged to the run of whitespace already replaced. *)
Fixpoint collapse_ws_go (in_ws : bool) (s : string) : string :=
  match s with
  | "" => ""
  | String c s' =>
      if is_space c
      then (if in_ws then collapse_ws_go true s'
            else String " " (collapse_ws_go true s'))
      else String c (collapse_ws_go false s')
  end.
Definition collapse_ws (s : string) : string := collapse_ws_go false s.

(** The class [[a-zA-Z0-9]] of [re]. *)
Definition is_alnum (c : ascii) : bool :=
  let n := N_of_ascii c in
  ((48 <=? n) && (n <=? 57) || (65 <=? n) && (n <=? 90)
   || (97 <=? n) && (n <=? 122))%N.

(** [re.sub(r'[^a-zA-Z0-9]', '', s)] *)
Fixpoint strip_non_alnum (s : string) : string :=
  match s with
  | "" => ""
  | String c s' =>
      if is_alnum c then String c (strip_non_alnum s') else strip_non_alnum s'
  end.

(** [s[:n]] and [s[n:]] for a natural [n], used to state lemmas. *)
Fixpoint take (n : nat) (s : string) : string :=
  match n, s with
  | S n', String c s' => String c (take n' s')
  | _, _ => ""
  end.
Fixpoint drop (n : nat) (s : string) : string :=
  match n, s with
  | S n', String _ s' => drop n' s'
  | _, _ => s
  end.

(** The last character of [s], if any; [s.endswith(c)] compares it with [c]. *)
Fixpoint last_char (s : string) : option ascii :=
  match s with
  | "" => None
  | String c s' =>
      match last_char s' with Some d => Some d | None => Some c end
  end.

(** Every character is whitespace. *)
Fixpoint all_space (s : string) : bool :=
  match s with
  | "" => true
  | String c s' => is_space c && all_space s'
  end.

(** [s] has no two whitespace characters in a row and no whitespace but
    the space; [prev_ws] tells that a whitespace character stands before. *)
Fixpoint single_spaced (prev_ws : bool) (s : string) : bool :=
  match s with
  | "" => true
  | String c s' =>
      if is_space c
      then negb prev_ws && Ascii.eqb c " " && single_spaced true s'
      else single_spaced false s'
  end.

(** Every character of [s] passes the test [p]. *)
Fixpoint all_chars (p : ascii → bool) (s : string) : bool :=
  match s with
  | "" => true
  | String c s' => p c && all_chars p s'
  end.

(** The class [[a-z0-9]]. *)
Definition is_lower_alnum (c : ascii) : bool :=
  let n := N_of_ascii c in
  ((48 <=? n) && (n <=? 57) || (97 <=? n) && (n <=? 122))%N.

End Str.

(** ** The data flowing through the pipeline *)

(** What the code reads of a spaCy token: its own attributes, its index in
    the sentence, and index, tag and lemma of its syntactic head. *)
Record Token := {
  text : string;
  lemma_ : string;
  pos_ : string;
  dep_ : string;
  tok_i : nat;
  head_i : nat;
  head_pos_ : string;
  head_lemma_ : string
}.

(** A noun chunk or entity span: its text and its root token. *)
Record Span := {
  span_text : string;
  root : Token
}.

(** The parsed sentence returned by [nlp]. *)
Record Doc := {
  tokens : list Token;
  noun_chunks : list Span;
  ents : list Span
}.

(** The dictionary built by [extract_features] for one sentence. *)
Record Feature := {
  sentence : string;
  verbs : list string;
  action_verbs : list string;
  nouns : list string;
  entities : list string;
  svo_patterns : list (string * string * string);
  modals : list string;
  doc : Doc
}.

(** The same dictionary once ["req_score"] has been stored in it. *)
Record Scored := {
  feature : Feature;
  req_score : Z
}.

(** The dictionary built by [classify_requirements] for one requirement. *)
Record Classified := {
  requirement : string;
  stakeholder : string;
  req_type : string;
  categories : list string
}.

Global Instance Token_eq_dec : EqDecision Token.
Proof. solve_decision. Defined.
Global Instance Span_eq_dec : EqDecision Span.
Proof. solve_decision. Defined.
Global Instance Doc_eq_dec : EqDecision Doc.
Proof. solve_decision. Defined.
Global Instance Feature_eq_dec : EqDecision Feature.
Proof. solve_decision. Defined.
Global Instance Scored_eq_dec : EqDecision Scored.
Proof. solve_decision. Defined.
Global Instance Classified_eq_dec : EqDecision Classified.
Proof. solve_decision. Defined.

(** Truth value of a Python list: non-empty. *)
Definition truthy {A} (l : list A) : bool :=
  match l with [] => false | _ :: _ => true end.

(** ** Stage 2: feature extraction (the pure part, given the parse) *)

Definition action_vocabulary : list string :=
  ["allow"; "enable"; "provide"; "support"; "manage"; "monitor"; "check";
   "view"; "book"; "pay"; "receive"; "create"; "track"; "generate"].

Definition modal_vocabulary : list string :=
  ["should"; "must"; "will"; "can"; "could"].

(** The triples contributed by one noun chunk. *)
Definition svo_of_chunk (d : Doc) (chunk : Span) : list (string * string * string) :=
  if bool_decide (dep_ (root chunk) = "nsubj" ∧ head_pos_ (root chunk) = "VERB")
  then
    let verb := head_lemma_ (root chunk) in
    let subject := span_text chunk in
    (λ token, (subject, verb, text token)) <$>
      filter (λ token, head_i token = head_i (root chunk)
                       ∧ dep_ token ∈ ["dobj"; "pobj"]) (tokens d)
  else [].

Definition features_of (s : string) (d : Doc) : Feature :=
  let vs := lemma_ <$> filter (λ token, pos_ token = "VERB") (tokens d) in
  {| sentence := s;
     verbs := vs;
     action_verbs := filter (λ v, v ∈ action_vocabulary) vs;
     nouns := text <$> filter (λ token, pos_ token = "NOUN") (tokens d);
     entities := span_text <$> ents d;
     svo_patterns := noun_chunks d ≫= svo_of_chunk d;
     modals := text <$> filter (λ token, dep_ token = "aux"
                                 ∧ Str.lower (text token) ∈ modal_vocabulary)
                               (tokens d);
     doc := d |}.

(** ** Stage 3: [identify_potential_requirements] *)

Definition requirement_keywords : list string :=
  ["need"; "require"; "must"; "should"; "allow"; "enable"; "access"; "view";
   "book"; "reserve"].
Definition system_components : list string :=
  ["machine"; "payment"; "reservation"; "notification"; "camera"; "account";
   "feedback"; "review"].
Definition user_roles : list string :=
  ["customer"; "client"; "user"; "administrator"; "owner"].

(** The body of the scoring loop: the value of [score] when it is stored. *)
Definition score_of (f : Feature) : Z :=
  let score := 0 in
  let score :=
    if truthy (action_verbs f)
    then score + Z.of_nat (length (action_verbs f)) * 2 else score in
  let score :=
    if truthy (modals f)
    then score + Z.of_nat (length (modals f)) * 3 else score in
  let score :=
    if truthy (svo_patterns f)
    then score + Z.of_nat (length (svo_patterns f)) * 2 else score in
  let score :=
    if Str.contains_any requirement_keywords (Str.lower (sentence f))
    then score + 3 else score in
  let score :=
    if Str.contains_any system_components (Str.lower (sentence f))
    then score + 2 else score in
  let score :=
    if Str.contains_any user_roles (Str.lower (sentence f))
    then score + 2 else score in
  score.

Definition with_score (f : Feature) : Scored :=
  {| feature := f; req_score := score_of f |}.

(** [potential_reqs.sort(key=lambda x: x["req_score"], reverse=True)]:
    [list.sort] is stable, also with [reverse=True]; a record goes in front
    of the first record whose key is not larger than its own. *)
Fixpoint insert_desc (x : Scored) (l : list Scored) : list Scored :=
  match l with
  | [] => [x]
  | y :: l' =>
      if bool_decide (req_score y ≤ req_score x)
      then x :: y :: l' else y :: insert_desc x l'
  end.
Definition sort_desc (l : list Scored) : list Scored := foldr insert_desc [] l.

Definition identify_potential_requirements (features : list Feature) : list Scored :=
  let potential_reqs := with_score <$> features in
  let potential_reqs := sort_desc potential_reqs in
  filter (λ req, 3 < req_score req) potential_reqs.

(** ** Stage 4: [formulate_requirements] *)

(** [actors]: the text of the noun chunks whose root is a subject. *)
Definition actors_of (d : Doc) : list string :=
  span_text <$> filter (λ chunk, dep_ (root chunk) = "nsubj") (noun_chunks d).

(** [objects]: the text of the noun chunks whose root is an object. *)
Definition objects_of (d : Doc) : list string :=
  span_text <$> filter (λ chunk, dep_ (root chunk) ∈ ["dobj"; "pobj"])
                       (noun_chunks d).

(** [any(actor.lower() in names for actor in actors if actor)] *)
Definition any_actor_in (names : list string) (actors : list string) : bool :=
  existsb (λ actor, bool_decide (Str.lower actor ∈ names))
          (filter (λ actor, actor ≠ "") actors).

Definition primary_actor_of (actors : list string) : string :=
  if any_actor_in ["customer"; "client"; "user"] actors then "The customer"
  else if any_actor_in ["administrator"; "admin"; "owner"] actors
       then "The administrator"
       else "The system".

(** [actions = req["action_verbs"] if req["action_verbs"] else req["verbs"]] *)
Definition actions_of (f : Feature) : list string :=
  if truthy (action_verbs f) then action_verbs f else verbs f.

(** [action = actions[0] if actions else "support"] *)
Definition action_of (f : Feature) : string :=
  match actions_of f with
  | a :: _ => a
  | [] => "support"
  end.

(** The value of [requirement] after the [if actors and actions and objects]
    statement. *)
Definition formulate_template (req : Scored) : string :=
  let f := feature req in
  let actors := actors_of (doc f) in
  let primary_actor := primary_actor_of actors in
  let actions := actions_of f in
  let action := action_of f in
  let objects := objects_of (doc f) in
  if truthy actors && truthy actions && truthy objects
  then primary_actor +:+ " shall " +:+ action +:+ " "
       +:+ default "" (head objects)
  else primary_actor +:+ " shall " +:+ action +:+ " "
       +:+ Str.lower (sentence f).

(** [requirement.replace("  ", " ").strip()] *)
Definition formulate_cleanup (requirement : string) : string :=
  Str.strip (Str.replace "  " " " requirement).

(** One turn of the loop that adds context from prepositional objects. *)
Definition add_context (requirement : string) (chunk : Span) : string :=
  if bool_decide (dep_ (root chunk) ∈ ["pobj"])
     && negb (Str.contains (span_text chunk) requirement)
  then
    if negb (Str.endswith "." requirement)
    then requirement +:+ " for " +:+ span_text chunk
    else requirement
  else requirement.

Definition formulate_one (req : Scored) : string :=
  foldl add_context (formulate_cleanup (formulate_template req))
        (noun_chunks (doc (feature req))).

Definition formulate_requirements (potential_reqs : list Scored) : list string :=
  formulate_one <$> potential_reqs.

(** ** Stage 5: [refine_requirements] *)

(** [simple_req = re.sub(r'[^a-zA-Z0-9]', '', req.lower())] *)
Definition simple_req (req : string) : string :=
  Str.strip_non_alnum (Str.lower req).

(** The first loop: [unique_reqs], given the keys already in [seen]. *)
Fixpoint unique_reqs_go (seen : gset string) (formulated_reqs : list string)
  : list string :=
  match formulated_reqs with
  | [] => []
  | req :: rest =>
      let key := simple_req req in
      if bool_decide ((key ∉ seen) ∧ (4 < length (Str.split req))%nat)
      then req :: unique_reqs_go ({[key]} ∪ seen) rest
      else unique_reqs_go seen rest
  end.
Definition unique_reqs (formulated_reqs : list string) : list string :=
  unique_reqs_go ∅ formulated_reqs.

Definition lead_phrases : list string :=
  ["the system shall"; "the customer should"; "the administrator should"].

(** [any(req.lower().startswith(prefix) for prefix in lead_phrases)] *)
Definition has_lead_phrase (req : string) : bool :=
  existsb (λ prefix, Str.startswith prefix (Str.lower req)) lead_phrases.

Definition ensure_lead (req : string) : string :=
  if negb (has_lead_phrase req) then "The system shall " +:+ req else req.

Definition ensure_period (req : string) : string :=
  if negb (Str.endswith "." req) then req +:+ "." else req.

Definition fix_common_issues (req : string) : string :=
  let req := Str.replace " should be able to be able to " " should be able to " req in
  let req := Str.replace " should should " " should " req in
  let req := Str.replace " shall shall " " shall " req in
  req.

(** The body of the second loop. *)
Definition normalize (req : string) : string :=
  fix_common_issues (ensure_period (ensure_lead req)).

Definition refine_requirements (formulated_reqs : list string) : list string :=
  normalize <$> unique_reqs formulated_reqs.

(** ** Stage 6: classification of one requirement text *)

Definition stakeholder_of (req : string) : string :=
  if Str.contains "customer" (Str.lower req)
     || Str.contains "client" (Str.lower req)
     || Str.contains "user" (Str.lower req)
  then "Customer"
  else if Str.contains "administrator" (Str.lower req)
          || Str.contains "admin" (Str.lower req)
          || Str.contains "owner" (Str.lower req)
       then "Administrator"
       else "System".

Definition non_functional_keywords : list string :=
  ["performance"; "security"; "reliability"; "usability"; "maintainability"].

Definition req_type_of (req : string) : string :=
  if Str.contains_any non_functional_keywords (Str.lower req)
  then "Non-functional" else "Functional".

(** The taxonomy, in the order in which the dictionary declares it. *)
Definition category_keywords : list (string * list string) :=
  [("Washing/Drying", ["machine"; "washer"; "dryer"; "washing"; "drying"]);
   ("Security", ["security"; "camera"; "monitor"; "surveillance"]);
   ("Scheduling", ["schedule"; "booking"; "reservation"; "book"; "reserve"]);
   ("Payment", ["payment"; "pay"; "coin"; "card"; "credit"; "debit"]);
   ("Reporting", ["report"; "record"; "track"; "log"]);
   ("Communication", ["communicate"; "notification"; "alert"; "message"]);
   ("Feedback", ["feedback"; "review"; "comment"; "rating"])].

(** The loop over [category_keywords.items()], appending to [categories]. *)
Definition matched_categories (req : string) : list string :=
  foldl (λ categories entry,
           if Str.contains_any entry.2 (Str.lower req)
           then categories ++ [entry.1] else categories)
        [] category_keywords.

Definition categories_of (req : string) : list string :=
  let categories := matched_categories req in
  if negb (truthy categories) then ["General"] else categories.

Definition classify_one (req : string) : Classified :=
  {| requirement := req;
     stakeholder := stakeholder_of req;
     req_type := req_type_of req;
     categories := categories_of req |}.

(** The grouping of [extract_and_format], on the classified requirements. *)
Definition format_grouped (classified_reqs : list Classified) : list string :=
  let customer_reqs := filter (λ req, stakeholder req = "Customer") classified_reqs in
  let admin_reqs := filter (λ req, stakeholder req = "Administrator") classified_reqs in
  let system_reqs := filter (λ req, stakeholder req = "System") classified_reqs in
  let formatted_reqs := [] in
  let formatted_reqs := formatted_reqs ++ (requirement <$> customer_reqs) in
  let formatted_reqs := formatted_reqs ++ (requirement <$> admin_reqs) in
  let formatted_reqs := formatted_reqs ++ (requirement <$> system_reqs) in
  formatted_reqs.

(** ** The pipeline over an analysis engine *)

Section Pipeline.

(** NLTK's [sent_tokenize] and spaCy's [nlp]. *)
Variable sent_tokenize : string → list string.
Variable nlp : string → option Doc.

Definition preprocess_text (text : string) : list string :=
  let text := Str.collapse_ws text in
  let sentences := sent_tokenize text in
  filter (λ s, (5 < length (Str.split s))%nat) sentences.

Definition extract_features (sentences : list string) : option (list Feature) :=
  mapM (λ sentence, d ← nlp sentence; Some (features_of sentence d)) sentences.

(** Each requirement is parsed before it is classified; the parse itself
    is not used. *)
Definition classify_requirements (refined_reqs : list string)
  : option (list Classified) :=
  mapM (λ req, _ ← nlp req; Some (classify_one req)) refined_reqs.

Definition extract_requirements (system_description : string)
  : option (list Classified) :=
  let sentences := preprocess_text system_description in
  features ← extract_features sentences;
  let potential_reqs := identify_potential_requirements features in
  let formulated_reqs := formulate_requirements potential_reqs in
  let refined_reqs := refine_requirements formulated_reqs in
  classify_requirements refined_reqs.

Definition extract_and_format (system_description : string)
  : option (list string) :=
  classified_reqs ← extract_requirements system_description;
  Some (format_grouped classified_reqs).

End Pipeline.

(** ** The specification's wording, for comparison with the code *)

(** The score of a feature record as the Requirement Scorer is specified:
    weights 2, 3, 2 on the three counts and 3, 2, 2 on the three lexicons. *)
Definition spec_score (f : Feature) : Z :=
  2 * Z.of_nat (length (action_verbs f))
  + 3 * Z.of_nat (length (modals f))
  + 2 * Z.of_nat (length (svo_patterns f))
  + (if Str.contains_any
          ["need"; "require"; "must"; "should"; "allow"; "enable"; "access";
           "view"; "book"; "reserve"] (Str.lower (sentence f))
     then 3 else 0)
  + (if Str.contains_any
          ["machine"; "payment"; "reservation"; "notification"; "camera";
           "account"; "feedback"; "review"] (Str.lower (sentence f))
     then 2 else 0)
  + (if Str.contains_any
          ["customer"; "client"; "user"; "administrator"; "owner"]
          (Str.lower (sentence f))
     then 2 else 0).

(** Descending order of the scores. *)
Definition score_ge (x y : Scored) : Prop := req_score y ≤ req_score x.

(** A feature record with the specified score attached. *)
Definition spec_scored (f : Feature) : Scored :=
  {| feature := f; req_score := spec_score f |}.

(** The invariant the data model states for a refined requirement: at least
    five words, a final period, an approved lead phrase. *)
Definition refined_invariant (r : string) : Prop :=
  (5 ≤ length (Str.split r))%nat
  ∧ Str.endswith "." r = true
  ∧ (Str.startswith "the system shall" (Str.lower r) = true
     ∨ Str.startswith "the customer should" (Str.lower r) = true
     ∨ Str.startswith "the administrator should" (Str.lower r) = true).

(** The short template promised whenever actors and objects are found. *)
Definition short_template_claim (req : Scored) : Prop :=
  let f := feature req in
  actors_of (doc f) ≠ [] → objects_of (doc f) ≠ [] →
  ∃ o, head (objects_of (doc f)) = Some o
       ∧ formulate_template req
         = primary_actor_of (actors_of (doc f)) +:+ " shall "
           +:+ action_of f +:+ " " +:+ o.

(** ** Parsed sentences and a small engine, to run the pipeline on *)

Definition tk (n : nat) (t lemma pos dep : string)
    (head : nat) (head_lemma head_pos : string) : Token :=
  {| text := t; lemma_ := lemma; pos_ := pos; dep_ := dep; tok_i := n;
     head_i := head; head_pos_ := head_pos; head_lemma_ := head_lemma |}.

(** A copula sentence: subject and prepositional objects, no token tagged
    VERB. *)
Definition room_sentence : string := "The machine is in the room for customers".
Definition room_doc : Doc :=
  let machine := tk 1 "machine" "machine" "NOUN" "nsubj" 2 "be" "AUX" in
  let room := tk 5 "room" "room" "NOUN" "pobj" 3 "in" "ADP" in
  let customers := tk 7 "customers" "customer" "NOUN" "pobj" 6 "for" "ADP" in
  {| tokens :=
       [tk 0 "The" "the" "DET" "det" 1 "machine" "NOUN"; machine;
        tk 2 "is" "be" "AUX" "ROOT" 2 "be" "AUX";
        tk 3 "in" "in" "ADP" "prep" 2 "be" "AUX";
        tk 4 "the" "the" "DET" "det" 5 "room" "NOUN"; room;
        tk 6 "for" "for" "ADP" "prep" 5 "room" "NOUN"; customers];
     noun_chunks :=
       [{| span_text := "The machine"; root := machine |};
        {| span_text := "the room"; root := room |};
        {| span_text := "customers"; root := customers |}];
     ents := [] |}.
Definition room_candidate : Scored := with_score (features_of room_sentence room_doc).

(** Two clauses, an owner and a customer as subjects. *)
Definition fee_sentence : string :=
  "Owner confirms and customer pays the reservation fee online".
Definition fee_doc : Doc :=
  let owner := tk 0 "Owner" "owner" "NOUN" "nsubj" 1 "confirm" "VERB" in
  let customer := tk 3 "customer" "customer" "NOUN" "nsubj" 4 "pay" "VERB" in
  let fee := tk 7 "fee" "fee" "NOUN" "dobj" 4 "pay" "VERB" in
  {| tokens :=
       [owner; tk 1 "confirms" "confirm" "VERB" "ROOT" 1 "confirm" "VERB";
        tk 2 "and" "and" "CCONJ" "cc" 1 "confirm" "VERB"; customer;
        tk 4 "pays" "pay" "VERB" "conj" 1 "confirm" "VERB";
        tk 5 "the" "the" "DET" "det" 7 "fee" "NOUN";
        tk 6 "reservation" "reservation" "NOUN" "compound" 7 "fee" "NOUN"; fee;
        tk 8 "online" "online" "ADV" "advmod" 4 "pay" "VERB"];
     noun_chunks :=
       [{| span_text := "Owner"; root := owner |};
        {| span_text := "customer"; root := customer |};
        {| span_text := "the reservation fee"; root := fee |}];
     ents := [] |}.
Definition fee_candidate : Scored := with_score (features_of fee_sentence fee_doc).

(** A description of these two sentences, and an engine that knows them:
    it splits the description at the full stop and parses any other text
    into an empty parse. *)
Definition demo_description : string :=
  "The machine is  in the room for customers.
   Owner confirms and customer pays the reservation fee online".
Definition demo_sent_tokenize (t : string) : list string :=
  if decide (t = Str.collapse_ws demo_description)
  then ["The machine is in the room for customers."; fee_sentence]
  else [t].
Definition demo_nlp (s : string) : option Doc :=
  if decide (s = "The machine is in the room for customers.") then Some room_doc
  else if decide (s = fee_sentence) then Some fee_doc
  else Some {| tokens := []; noun_chunks := []; ents := [] |}.

(** A transitive sentence with a prepositional object after the direct
    object. *)
Definition monitor_sentence : string :=
  "The administrator must monitor the payment system for fraud".
Definition monitor_doc : Doc :=
  let administrator :=
    tk 1 "administrator" "administrator" "NOUN" "nsubj" 3 "monitor" "VERB" in
  let system := tk 6 "system" "system" "NOUN" "dobj" 3 "monitor" "VERB" in
  let fraud := tk 8 "fraud" "fraud" "NOUN" "pobj" 7 "for" "ADP" in
  {| tokens :=
       [tk 0 "The" "the" "DET" "det" 1 "administrator" "NOUN"; administrator;
        tk 2 "must" "must" "AUX" "aux" 3 "monitor" "VERB";
        tk 3 "monitor" "monitor" "VERB" "ROOT" 3 "monitor" "VERB";
        tk 4 "the" "the" "DET" "det" 6 "system" "NOUN";
        tk 5 "payment" "payment" "NOUN" "compound" 6 "system" "NOUN"; system;
        tk 7 "for" "for" "ADP" "prep" 3 "monitor" "VERB"; fraud];
     noun_chunks :=
       [{| span_text := "The administrator"; root := administrator |};
        {| span_text := "the payment system"; root := system |};
        {| span_text := "fraud"; root := fraud |}];
     ents := [] |}.
Definition monitor_candidate : Scored :=
  with_score (features_of monitor_sentence monitor_doc).

(** A parser that knows the sentences above and rejects every other text. *)
Definition strict_nlp (s : string) : option Doc :=
  if decide (s = "The machine is in the room for customers.") then Some room_doc
  else if decide (s = fee_sentence) then Some fee_doc
  else None.

(** ** Sanity checks of the embedding *)

Example lower_ex : Str.lower "The System SHALL x." = "the system shall x.".
Proof. reflexivity. Qed.
Example split_ex : Str.split "  Fix the   pump. " = ["Fix"; "the"; "pump."].
Proof. reflexivity. Qed.
Example replace_ex : Str.replace "  " " " "a   b  c" = "a  b c".
Proof. reflexivity. Qed.
Example replace_ex2 :
  Str.replace " shall shall " " shall " "x shall shall shall y" = "x shall shall y".
Proof. reflexivity. Qed.
Example strip_ex : Str.strip "  a b  " = "a b".
Proof. reflexivity. Qed.
Example collapse_ex : Str.collapse_ws "a  b
 c " = "a b c ".
Proof. reflexivity. Qed.
Example key_ex : Str.strip_non_alnum (Str.lower "The system, shall: 4x!") = "thesystemshall4x".
Proof. reflexivity. Qed.
Example endswith_ex : Str.endswith "." "abc." = true /\ Str.endswith "." "abc" = false.
Proof. split; reflexivity. Qed.

Example room_candidate_ex :
  identify_potential_requirements [features_of room_sentence room_doc]
  = [room_candidate]
  ∧ req_score room_candidate = 4
  ∧ actors_of room_doc = ["The machine"]
  ∧ objects_of room_doc = ["the room"; "customers"]
  ∧ formulate_one room_candidate
    = "The system shall support the machine is in the room for customers".
Proof. vm_compute. by repeat split. Qed.
Example fee_candidate_ex :
  req_score fee_candidate = 8
  ∧ svo_patterns (feature fee_candidate) = [("customer", "pay", "fee")]
  ∧ actors_of fee_doc = ["Owner"; "customer"]
  ∧ formulate_one fee_candidate = "The customer shall pay the reservation fee".
Proof. vm_compute. by repeat split. Qed.
Example demo_run_ex :
  extract_requirements demo_sent_tokenize demo_nlp demo_description
  = Some [classify_one "The system shall The customer shall pay the reservation fee.";
          classify_one "The system shall support the machine is in the room for customers."]
  ∧ extract_and_format demo_sent_tokenize demo_nlp demo_description
    = Some ["The system shall The customer shall pay the reservation fee.";
            "The system shall support the machine is in the room for customers."].
Proof. vm_compute. by repeat split. Qed.
Example format_grouped_ex :
  format_grouped
    [classify_one "The system shall log the cycle.";
     classify_one "The system shall alert the owner.";
     classify_one "The system shall notify the user.";
     classify_one "The system shall track the order."]
  = ["The system shall notify the user."; "The system shall alert the owner.";
     "The system shall log the cycle."; "The system shall track the order."].
Proof. vm_compute. reflexivity. Qed.
Example monitor_candidate_ex :
  req_score monitor_candidate = 14
  ∧ modals (feature monitor_candidate) = ["must"]
  ∧ svo_patterns (feature monitor_candidate)
    = [("The administrator", "monitor", "system")]
  ∧ formulate_template monitor_candidate
    = "The system shall monitor the payment system"
  ∧ formulate_one monitor_candidate
    = "The system shall monitor the payment system for fraud".
Proof. vm_compute. by repeat split. Qed.
Example refine_ex :
  refine_requirements ["The customer shall book a washing machine";
                       "The customer shall book a washing machine.";
                       "too short"]
  = ["The system shall The customer shall book a washing machine."].
Proof. vm_compute. reflexivity. Qed.
Example classify_ex :
  classify_one "The system shall The customer shall book a washing machine."
  = {| requirement := "The system shall The customer shall book a washing machine.";
       stakeholder := "Customer"; req_type := "Functional";
       categories := ["Washing/Drying"; "Scheduling"] |}.
Proof. vm_compute. reflexivity. Qed.

(** ** Facts about the string operations *)

Module StrFacts.
Import Str.

Lemma str_app_cons c a b : String c a +:+ b = String c (a +:+ b).
Proof. reflexivity. Qed.

Lemma str_app_empty_l a : "" +:+ a = a.
Proof. reflexivity. Qed.

Lemma str_app_empty_r a : a +:+ "" = a.
Proof. induction a as [|c a IH]; [done|]. by rewrite str_app_cons, IH. Qed.

Lemma str_app_assoc a b c : (a +:+ b) +:+ c = a +:+ b +:+ c.
Proof. induction a as [|x a IH]; [done|]. by rewrite !str_app_cons, IH. Qed.

Lemma str_length_app a b :
  String.length (a +:+ b) = (String.length a + String.length b)%nat.
Proof. induction a as [|x a IH]; [done|]. rewrite str_app_cons. simpl. by rewrite IH. Qed.

Lemma lower_app a b : lower (a +:+ b) = lower a +:+ lower b.
Proof. induction a as [|x a IH]; [done|]. rewrite !str_app_cons. simpl. by rewrite IH, str_app_cons. Qed.

Lemma lower_take n s : lower (take n s) = take n (lower s).
Proof. revert s; induction n as [|n IH]; intros [|c s]; simpl; [done..|]. by rewrite IH. Qed.

Lemma lower_drop n s : lower (drop n s) = drop n (lower s).
Proof. revert s; induction n as [|n IH]; intros [|c s]; simpl; try done. Qed.

Lemma str_take_app_le n a b :
  (n ≤ String.length a)%nat → take n (a +:+ b) = take n a.
Proof.
  revert a; induction n as [|n IH]; intros a Hn.
  { destruct a; [|done]. by destruct b. }
  destruct a as [|c a]; simpl in Hn; [lia|].
  rewrite str_app_cons. simpl. f_equal. apply IH. lia.
Qed.

Lemma str_take_length n s :
  (n ≤ String.length s)%nat → String.length (take n s) = n.
Proof.
  revert s; induction n as [|n IH]; intros [|c s] Hn; simpl in *; try done; try lia.
  f_equal. apply IH. lia.
Qed.

Lemma str_take_length_le n s : (String.length (take n s) ≤ String.length s)%nat.
Proof.
  revert s; induction n as [|n IH]; intros [|c s]; simpl; try lia.
  specialize (IH s). lia.
Qed.

Lemma startswith_app p r : startswith p (p +:+ r) = true.
Proof.
  induction p as [|c p IH]; [done|]. rewrite str_app_cons. simpl.
  by rewrite Ascii.eqb_refl, IH.
Qed.

Lemma startswith_split p s :
  startswith p s = true → s = p +:+ drop (String.length p) s.
Proof.
  revert s; induction p as [|c p IH]; intros [|d s] H; simpl in *; try done.
  apply andb_true_iff in H as [Hc Hp]. apply Ascii.eqb_eq in Hc as ->.
  rewrite str_app_cons. f_equal. by apply IH.
Qed.

Lemma startswith_app_l p s r :
  startswith p s = true → startswith p (s +:+ r) = true.
Proof.
  intros H. rewrite (startswith_split p s H), str_app_assoc. apply startswith_app.
Qed.

Lemma startswith_length p s :
  startswith p s = true → (String.length p ≤ String.length s)%nat.
Proof.
  intros H. rewrite (startswith_split p s H), str_length_app. lia.
Qed.

Lemma startswith_take p s n :
  (String.length p ≤ n)%nat → startswith p (take n s) = startswith p s.
Proof.
  revert p s; induction n as [|n IH]; intros [|c p] [|d s] Hn; simpl in *;
    try done; try lia.
  f_equal. apply IH. lia.
Qed.

(** A match of a lower-case pattern is still there in the lower-cased text. *)
Lemma startswith_lower old t :
  lower old = old → startswith old t = true → startswith old (lower t) = true.
Proof.
  intros Hold H. rewrite (startswith_split old t H), lower_app, Hold.
  apply startswith_app.
Qed.

Lemma startswith_nonempty p s : p ≠ "" → startswith p s = true → s ≠ "".
Proof. by destruct p, s. Qed.

(** *** [replace] *)

Lemma replace_go_skip old new k s :
  replace_go old new k s = replace old new (drop k s).
Proof.
  revert k; induction s as [|c s IH]; intros [|k]; simpl; auto.
Qed.

Lemma replace_cons old new c s :
  replace old new (String c s) =
    if startswith old (String c s)
    then new +:+ replace old new (drop (pred (String.length old)) s)
    else String c (replace old new s).
Proof.
  unfold replace at 1. simpl replace_go.
  by rewrite replace_go_skip.
Qed.

(** Where the replacement is a prefix of the pattern, a replacement only
    deletes characters after that prefix: the first [n] characters stay
    when no match begins early enough to delete one of them. *)
Lemma replace_take old new n s :
  startswith new old = true →
  (∀ p, (p + String.length new < n)%nat → startswith old (drop p s) = false) →
  take n (replace old new s) = take n s.
Proof.
  intros Hnew. revert n; induction s as [|c s IH]; intros n Hp.
  { done. }
  rewrite replace_cons. destruct (startswith old (String c s)) eqn:Hm.
  - assert (n ≤ String.length new)%nat as Hn.
    { destruct (decide (n ≤ String.length new)%nat) as [|Hgt]; [done|].
      specialize (Hp 0%nat). simpl in Hp. rewrite Hm in Hp.
      discriminate Hp. lia. }
    transitivity (take n new); [by rewrite str_take_app_le|].
    symmetry. rewrite (startswith_split old _ Hm).
    rewrite (startswith_split new old Hnew), str_app_assoc.
    by rewrite str_take_app_le.
  - destruct n as [|n]; [done|]. simpl. f_equal. apply IH.
    intros p Hlt. apply (Hp (S p)). lia.
Qed.

(** Hence a lower-case lead phrase survives such a replacement. *)
Lemma replace_keeps_lead lead old new s :
  startswith new old = true →
  lower old = old →
  (∀ p r, (p + String.length new < String.length lead)%nat →
          startswith old (drop p (lead +:+ r)) = false) →
  startswith lead (lower s) = true →
  startswith lead (lower (replace old new s)) = true.
Proof.
  intros Hnew Hold Hp Hs.
  rewrite <-(startswith_take lead _ (String.length lead)) by done.
  rewrite <-lower_take, (replace_take old new) ; [|done|].
  - by rewrite lower_take, startswith_take.
  - intros p Hlt.
    destruct (startswith old (drop p s)) eqn:Hm; [|done].
    apply (startswith_lower old _ Hold) in Hm.
    rewrite lower_drop, (startswith_split lead _ Hs) in Hm.
    by rewrite (Hp p _ Hlt) in Hm.
Qed.

(** The same for the text as it is, without lower-casing. *)
Lemma replace_keeps_prefix lead old new s :
  startswith new old = true →
  (∀ p r, (p + String.length new < String.length lead)%nat →
          startswith old (drop p (lead +:+ r)) = false) →
  startswith lead s = true →
  startswith lead (replace old new s) = true.
Proof.
  intros Hnew Hp Hs.
  rewrite <-(startswith_take lead _ (String.length lead)) by done.
  rewrite (replace_take old new); [by rewrite startswith_take|done|].
  intros p Hlt. rewrite (startswith_split lead _ Hs). by apply Hp.
Qed.

(** Discharges the side condition of the two lemmas above for literal
    [lead], [old] and [new]: position by position, the pattern differs
    from the lead phrase within the phrase. *)
Ltac no_early_match :=
  let p := fresh "p" in let r := fresh "r" in let Hlt := fresh "Hlt" in
  intros p r Hlt; simpl in Hlt;
  repeat (destruct p as [|p]; [reflexivity|]); lia.

(** *** The last character, [endswith] and [rstrip] *)

Lemma last_char_None s : last_char s = None ↔ s = "".
Proof. destruct s as [|c s]; simpl; [done|]. by destruct (last_char s). Qed.

Lemma last_char_app a b :
  last_char (a +:+ b) =
    match last_char b with Some c => Some c | None => last_char a end.
Proof.
  induction a as [|x a IH].
  - rewrite str_app_empty_l. simpl. by destruct (last_char b).
  - rewrite str_app_cons. simpl. rewrite IH.
    destruct (last_char b); [done|]. by destruct (last_char a).
Qed.

Lemma endswith_last c s :
  endswith (String c "") s = true ↔ last_char s = Some c.
Proof.
  induction s as [|d s IH]; [done|].
  simpl. destruct s as [|e s].
  - clear IH. simpl. destruct (Ascii.eqb_spec c d) as [->|Hne]; simpl; [done|].
    split; [done|]. by intros [= ->].
  - assert ((if (c =? d)%char then false else false) = false) as ->
      by (by destruct (c =? d)%char).
    rewrite orb_false_l, IH.
    by destruct (last_char (String e s)) eqn:E;
      [|apply last_char_None in E].
Qed.

Lemma endswith_app_nonempty c a b :
  b ≠ "" → endswith (String c "") (a +:+ b) = endswith (String c "") b.
Proof.
  intros Hb. apply eq_true_iff_eq. rewrite !endswith_last, last_char_app.
  destruct (last_char b) eqn:E; [done|]. by apply last_char_None in E.
Qed.

(** A replacement whose last character is that of the pattern does not
    change the last character of the text. *)
Lemma last_char_replace old new s :
  old ≠ "" → last_char old = last_char new →
  last_char (replace old new s) = last_char s.
Proof.
  intros Hne Hlast.
  remember (String.length s) as n eqn:Hn.
  revert s Hn. induction (lt_wf n) as [n _ IH]. intros s ->.
  destruct s as [|c s]; [done|].
  rewrite replace_cons. destruct (startswith old (String c s)) eqn:Hm.
  - pose proof (startswith_split old _ Hm) as Hs.
    assert (drop (String.length old) (String c s)
            = drop (pred (String.length old)) s) as Hd.
    { by destruct old. }
    rewrite Hd in Hs.
    set (r := drop (pred (String.length old)) s) in *.
    rewrite Hs, !last_char_app.
    rewrite (IH (String.length r)); [by rewrite Hlast|..|done].
    rewrite Hs, str_length_app. destruct old; [done|]. simpl. lia.
  - simpl. by rewrite (IH (String.length s)) by (simpl; lia || done).
Qed.

Lemma rstrip_app_keep a b :
  (∀ c, last_char a = Some c → is_space c = false) →
  rstrip (a +:+ b) = a +:+ rstrip b.
Proof.
  induction a as [|x a IH]; intros Ha; [done|].
  rewrite !str_app_cons. simpl. destruct a as [|y a].
  - rewrite !str_app_empty_l, (Ha x) by done. by destruct (rstrip b).
  - rewrite IH.
    + by rewrite str_app_cons.
    + intros c Hc. apply Ha. simpl in *. by rewrite Hc.
Qed.

Lemma lstrip_id c s : is_space c = false → lstrip (String c s) = String c s.
Proof. intros H. simpl. by rewrite H. Qed.

(** [strip] keeps a prefix that neither begins nor ends with whitespace. *)
Lemma strip_keeps_prefix p s :
  (∀ c, last_char p = Some c → is_space c = false) →
  (∀ c p', p = String c p' → is_space c = false) →
  startswith p s = true → startswith p (strip s) = true.
Proof.
  intros Hlast Hfirst Hs. rewrite (startswith_split p s Hs).
  unfold strip. destruct p as [|c p]; [done|].
  rewrite str_app_cons, lstrip_id by eauto.
  rewrite <-str_app_cons, rstrip_app_keep by done.
  apply startswith_app.
Qed.

(** *** Words *)

Lemma split_all_space s : all_space s = true → split s = [].
Proof.
  unfold split. induction s as [|c s IH]; [done|]. simpl.
  intros [Hc Hs]%andb_true_iff. rewrite Hc. simpl. auto.
Qed.

Lemma all_space_drop n s : all_space s = true → all_space (drop n s) = true.
Proof.
  revert s; induction n as [|n IH]; intros [|c s]; simpl; try done.
  intros [_ Hs]%andb_true_iff. auto.
Qed.

Lemma all_space_app a b :
  all_space (a +:+ b) = all_space a && all_space b.
Proof.
  induction a as [|c a IH]; [done|]. rewrite str_app_cons. simpl.
  by rewrite IH, andb_assoc.
Qed.

(** A substring of a text made of whitespace is made of whitespace. *)
Lemma all_space_contains s t :
  contains s t = true → all_space t = true → all_space s = true.
Proof.
  induction t as [|c t IH]; simpl.
  - rewrite orb_false_r. destruct s; [done|discriminate].
  - intros [Hp|Hc]%orb_true_iff [Hsp Ht]%andb_true_iff; [|auto].
    assert (all_space (String c t) = true) as Hall by (simpl; by rewrite Hsp, Ht).
    rewrite (startswith_split s _ Hp), all_space_app in Hall.
    by apply andb_true_iff in Hall as [? _].
Qed.

Lemma all_space_collapse_go b s :
  all_space s = true → all_space (collapse_ws_go b s) = true.
Proof.
  revert b; induction s as [|c s IH]; intros b; [done|]. simpl.
  intros [Hc Hs]%andb_true_iff. rewrite Hc.
  destruct b; simpl; auto.
Qed.

Lemma length_split_go_app_char cur s c :
  is_space c = false →
  (length (split_go cur s) ≤ length (split_go cur (s +:+ String c "")))%nat.
Proof.
  intros Hc. revert cur; induction s as [|d s IH]; intros cur.
  - simpl. rewrite Hc. simpl. destruct cur; simpl; lia.
  - rewrite str_app_cons. simpl. destruct (is_space d); [|apply IH].
    rewrite !length_app. specialize (IH None). lia.
Qed.

End StrFacts.

(** ** The Requirement Scorer *)

Section Scorer.

Implicit Types (x y : Scored) (l : list Scored) (k : Z).

Lemma score_of_spec f : score_of f = spec_score f.
Proof.
  unfold score_of, spec_score, requirement_keywords, system_components,
    user_roles.
  destruct (action_verbs f), (modals f), (svo_patterns f);
    cbn [truthy length];
    repeat match goal with |- context [if ?b then _ else _] => destruct b end;
    lia.
Qed.

Lemma with_score_spec f : with_score f = spec_scored f.
Proof. unfold with_score, spec_scored. by rewrite score_of_spec. Qed.

Lemma insert_desc_perm x l : insert_desc x l ≡ₚ x :: l.
Proof.
  induction l as [|y l IH]; simpl; [done|].
  case_bool_decide; [done|]. by rewrite IH, Permutation_swap.
Qed.

Lemma sort_desc_perm l : sort_desc l ≡ₚ l.
Proof.
  induction l as [|x l IH]; simpl; [done|].
  by rewrite insert_desc_perm, IH.
Qed.

Lemma insert_desc_sorted x l :
  StronglySorted score_ge l → StronglySorted score_ge (insert_desc x l).
Proof.
  induction l as [|y l IH]; intros Hl; simpl.
  { repeat constructor. }
  apply StronglySorted_cons in Hl as [Hy Hl].
  case_bool_decide as Hle.
  - apply StronglySorted_cons. split; [|by apply StronglySorted_cons].
    constructor; [done|].
    eapply Forall_impl; [exact Hy|]. unfold score_ge. intros z Hz. lia.
  - apply StronglySorted_cons. split; [|auto].
    rewrite insert_desc_perm. constructor; [|done]. unfold score_ge. lia.
Qed.

Lemma sort_desc_sorted l : StronglySorted score_ge (sort_desc l).
Proof.
  induction l as [|x l IH]; simpl; [constructor|].
  by apply insert_desc_sorted.
Qed.

(** Stability: inserting puts a record in front of the records of the same
    score, and moves no other record across one of its own score. *)
Lemma insert_desc_stable k x l :
  filter (λ r, req_score r = k) (insert_desc x l)
  = filter (λ r, req_score r = k) (x :: l).
Proof.
  induction l as [|y l IH]; simpl; [done|].
  case_bool_decide as Hle; [done|].
  rewrite (filter_cons _ y (insert_desc x l)), IH, !filter_cons.
  repeat case_decide; try done; lia.
Qed.

Lemma sort_desc_stable k l :
  filter (λ r, req_score r = k) (sort_desc l)
  = filter (λ r, req_score r = k) l.
Proof.
  induction l as [|x l IH]; simpl; [done|].
  by rewrite insert_desc_stable, !filter_cons, IH.
Qed.

Lemma StronglySorted_filter_score (P : Scored → Prop) `{!∀ x, Decision (P x)} l :
  StronglySorted score_ge l → StronglySorted score_ge (filter P l).
Proof.
  induction l as [|x l IH]; intros Hl; [constructor|].
  apply StronglySorted_cons in Hl as [Hx Hl].
  rewrite filter_cons. case_decide; [|auto].
  apply StronglySorted_cons. split; [|auto].
  apply Forall_forall. intros z [_ Hz]%list_elem_of_filter.
  by apply (proj1 (Forall_forall _ _) Hx).
Qed.

Lemma filter_filter_comm (P Q : Scored → Prop)
    `{!∀ x, Decision (P x)} `{!∀ x, Decision (Q x)} l :
  filter P (filter Q l) = filter Q (filter P l).
Proof.
  induction l as [|x l IH]; [done|].
  rewrite !(filter_cons _ x l).
  destruct (decide (Q x)), (decide (P x)); rewrite ?filter_cons;
    repeat case_decide; try done; by rewrite IH.
Qed.

End Scorer.

(** C1.  The Requirement Scorer gives every record the specified score
    (2 per action verb, 3 per modal, 2 per SVO triple, 3, 2 and 2 for the
    requirement, component and role lexicons); its output holds exactly the
    records whose score exceeds 3, in descending order of score, and records
    of equal score stand in their input order. *)
Theorem scorer_keeps_ranked_candidates (features : list Feature) :
  let out := identify_potential_requirements features in
  let scored := spec_scored <$> features in
  out ≡ₚ filter (λ r, 3 < req_score r) scored
  ∧ StronglySorted (λ a b, req_score b ≤ req_score a) out
  ∧ ∀ k, filter (λ r, req_score r = k) out
         = filter (λ r, req_score r = k) (filter (λ r, 3 < req_score r) scored).
Proof.
  intros out scored. subst out scored. unfold identify_potential_requirements.
  rewrite (list_fmap_ext with_score spec_scored features)
    by (intros; apply with_score_spec).
  split; [|split].
  - by rewrite sort_desc_perm.
  - apply StronglySorted_filter_score, sort_desc_sorted.
  - intros k. by rewrite filter_filter_comm, sort_desc_stable, filter_filter_comm.
Qed.

(** ** The Refiner *)

Section Refiner.
Import Str StrFacts.

Lemma has_lead_phrase_cases r :
  has_lead_phrase r = true ↔
    startswith "the system shall" (lower r) = true
    ∨ startswith "the customer should" (lower r) = true
    ∨ startswith "the administrator should" (lower r) = true.
Proof.
  unfold has_lead_phrase, lead_phrases. simpl existsb.
  rewrite orb_false_r, !orb_true_iff. tauto.
Qed.

Lemma ensure_lead_has_lead d : has_lead_phrase (ensure_lead d) = true.
Proof.
  unfold ensure_lead. destruct (has_lead_phrase d) eqn:E; simpl; [done|].
  apply has_lead_phrase_cases. left. by rewrite lower_app.
Qed.

Lemma ensure_period_has_lead r :
  has_lead_phrase r = true → has_lead_phrase (ensure_period r) = true.
Proof.
  unfold ensure_period. destruct (negb _); [|done].
  rewrite !has_lead_phrase_cases, lower_app.
  intros [H|[H|H]]; eauto using startswith_app_l.
Qed.

Lemma replace_has_lead old new r :
  startswith new old = true →
  lower old = old →
  (∀ lead, lead ∈ lead_phrases →
     ∀ p t, (p + String.length new < String.length lead)%nat →
            startswith old (drop p (lead +:+ t)) = false) →
  has_lead_phrase r = true → has_lead_phrase (replace old new r) = true.
Proof.
  intros Hnew Hold Hearly. rewrite !has_lead_phrase_cases.
  intros [H|[H|H]]; [left|right; left|right; right];
    (apply replace_keeps_lead; [done|done| |done]);
    apply Hearly; unfold lead_phrases;
    repeat first [apply list_elem_of_here | apply list_elem_of_further].
Qed.

Lemma fix_common_issues_has_lead r :
  has_lead_phrase r = true → has_lead_phrase (fix_common_issues r) = true.
Proof.
  intros H. unfold fix_common_issues.
  repeat (apply replace_has_lead; [done|done| |]); [..|done];
    intros lead Hin; unfold lead_phrases in Hin;
    repeat (apply elem_of_cons in Hin as [->|Hin]);
    try (by apply elem_of_nil in Hin); no_early_match.
Qed.

Lemma normalize_has_lead d : has_lead_phrase (normalize d) = true.
Proof.
  apply fix_common_issues_has_lead, ensure_period_has_lead,
    ensure_lead_has_lead.
Qed.

Lemma ensure_period_endswith r : endswith "." (ensure_period r) = true.
Proof.
  unfold ensure_period. destruct (endswith "." r) eqn:E; simpl; [done|].
  by rewrite endswith_app_nonempty.
Qed.

Lemma fix_common_issues_endswith r :
  endswith "." r = true → endswith "." (fix_common_issues r) = true.
Proof.
  unfold fix_common_issues. rewrite !endswith_last.
  intros H. by rewrite !last_char_replace.
Qed.

Lemma normalize_endswith d : endswith "." (normalize d) = true.
Proof. apply fix_common_issues_endswith, ensure_period_endswith. Qed.

(** Neither the lead phrase nor the period takes a word away. *)
Lemma ensure_lead_words d :
  (length (split d) ≤ length (split (ensure_lead d)))%nat.
Proof.
  unfold ensure_lead. destruct (negb _); [|done].
  unfold split. rewrite !str_app_cons, str_app_empty_l. simpl. lia.
Qed.

Lemma ensure_period_words r :
  (length (split r) ≤ length (split (ensure_period r)))%nat.
Proof.
  unfold ensure_period. destruct (negb _); [|done].
  by apply length_split_go_app_char.
Qed.

(** The first loop keeps a draft only if its key is new and it has more
    than four words; the keys kept are pairwise distinct and outside
    [seen]. *)
Lemma unique_reqs_go_spec seen drafts :
  NoDup (simple_req <$> unique_reqs_go seen drafts)
  ∧ Forall (λ d, (simple_req d ∉ seen) ∧ (4 < length (split d))%nat)
           (unique_reqs_go seen drafts)
  ∧ unique_reqs_go seen drafts `sublist_of` drafts
  ∧ ∀ d, d ∈ drafts → (4 < length (split d))%nat →
         simple_req d ∈ seen
         ∨ simple_req d ∈ simple_req <$> unique_reqs_go seen drafts.
Proof.
  revert seen. induction drafts as [|d drafts IH]; intros seen; simpl.
  { split_and!; [constructor|constructor|done|]. by intros d ?%elem_of_nil. }
  case_bool_decide as Hd.
  - destruct (IH ({[simple_req d]} ∪ seen)) as (Hnd & Hall & Hsub & Hcov).
    destruct Hd as [Hnew Hwords]. split_and!.
    + rewrite fmap_cons. constructor; [|done].
      intros (d' & Heq & Hin)%list_elem_of_fmap.
      apply (proj1 (Forall_forall _ _) Hall) in Hin as [Hin _].
      apply Hin. rewrite <-Heq. by apply elem_of_union_l, elem_of_singleton.
    + constructor; [done|]. eapply Forall_impl; [exact Hall|].
      intros d' [Hd' ?]. split; [|done].
      intros ?. apply Hd'. by apply elem_of_union_r.
    + by apply sublist_skip.
    + intros d' [->|Hin]%elem_of_cons Hw; rewrite fmap_cons.
      * right. apply elem_of_cons. by left.
      * destruct (Hcov d' Hin Hw) as [[Hs|Hs]%elem_of_union|Hs].
        -- apply elem_of_singleton in Hs as ->. right. apply elem_of_cons. by left.
        -- by left.
        -- right. apply elem_of_cons. by right.
  - destruct (IH seen) as (Hnd & Hall & Hsub & Hcov). split_and!; try done.
    + by apply sublist_cons.
    + intros d' [Heq|Hin]%elem_of_cons Hw; [subst d'|by apply Hcov].
      destruct (decide (simple_req d ∈ seen)); [by left|].
      destruct Hd. done.
Qed.

End Refiner.

(** C2.  On the two drafts of the end-to-end scenario, which begin with
    "The customer shall" and "The administrator shall", the Refiner does not
    keep the lead phrase: it puts "The system shall " in front of each. *)
Theorem refiner_prefixes_shall_drafts :
  refine_requirements
    ["The customer shall book a washing machine";
     "The administrator shall monitor the payment system for fraud"]
  = ["The system shall The customer shall book a washing machine.";
     "The system shall The administrator shall monitor the payment system for fraud."].
Proof. vm_compute. reflexivity. Qed.

(** C4, as stated, fails: two drafts with different keys are both kept, and
    the fix-up of the doubled "shall" makes their refined texts, hence the
    keys of these, equal. *)
Lemma refiner_output_keys_collide :
  ¬ NoDup (simple_req <$>
             refine_requirements ["The system shall do x y";
                                  "The system shall shall do x y"]).
Proof.
  assert (refine_requirements ["The system shall do x y";
                               "The system shall shall do x y"]
          = ["The system shall do x y."; "The system shall do x y."]) as ->
    by (vm_compute; reflexivity).
  intros Hnd. apply NoDup_cons in Hnd as [Hnotin _].
  apply Hnotin, elem_of_cons. by left.
Qed.

(** C4, amended.  The comparison keys of the drafts that the Refiner keeps
    are pairwise distinct, the keys being those of the drafts as they come
    in; the kept drafts are a subsequence of the input that covers the key
    of every draft of more than four words, and the output is their
    normalization, one by one and in order. *)
Theorem refiner_dedups_draft_keys (drafts : list string) :
  refine_requirements drafts = normalize <$> unique_reqs drafts
  ∧ NoDup (simple_req <$> unique_reqs drafts)
  ∧ unique_reqs drafts `sublist_of` drafts
  ∧ Forall (λ d, (4 < length (Str.split d))%nat) (unique_reqs drafts)
  ∧ Forall (λ d, (4 < length (Str.split d))%nat →
                 simple_req d ∈ simple_req <$> unique_reqs drafts) drafts.
Proof.
  destruct (unique_reqs_go_spec ∅ drafts) as (Hnd & Hall & Hsub & Hcov).
  split_and!; try done.
  - eapply Forall_impl; [exact Hall|]. by intros d [_ ?].
  - apply Forall_forall. intros d Hin Hw.
    destruct (Hcov d Hin Hw) as [Hs|Hs]; [|done].
    by apply elem_of_empty in Hs.
Qed.

(** C5, as stated, fails: a draft of five words whose doubled "should" is
    fixed up comes out with four words. *)
Lemma refiner_output_below_five_words :
  ¬ Forall refined_invariant
      (refine_requirements ["the customer should should go"]).
Proof.
  assert (refine_requirements ["the customer should should go"]
          = ["the customer should go."]) as -> by (vm_compute; reflexivity).
  intros [[Hw _] _]%Forall_cons. vm_compute in Hw. lia.
Qed.

(** C5, amended.  Every element of the Refiner's output ends with '.', and
    its lower-cased form begins with "the system shall", "the customer
    should" or "the administrator should"; it is the fix-up of a text of at
    least five words, which is a draft of at least five words with lead
    phrase and period ensured.  The fix-ups themselves may take words
    away. *)
Theorem refiner_output_invariant (drafts : list string) :
  Forall (λ r,
      Str.endswith "." r = true
      ∧ (Str.startswith "the system shall" (Str.lower r) = true
         ∨ Str.startswith "the customer should" (Str.lower r) = true
         ∨ Str.startswith "the administrator should" (Str.lower r) = true)
      ∧ ∃ d, d ∈ drafts
             ∧ (5 ≤ length (Str.split d))%nat
             ∧ (5 ≤ length (Str.split (ensure_period (ensure_lead d))))%nat
             ∧ r = fix_common_issues (ensure_period (ensure_lead d)))
    (refine_requirements drafts).
Proof.
  destruct (unique_reqs_go_spec ∅ drafts) as (_ & Hall & Hsub & _).
  unfold refine_requirements, unique_reqs.
  apply Forall_fmap, Forall_forall. intros d Hd. simpl.
  pose proof (proj1 (Forall_forall _ _) Hall d Hd) as [_ Hw].
  split_and!.
  - apply normalize_endswith.
  - apply has_lead_phrase_cases, normalize_has_lead.
  - exists d. split_and!; [|lia| |done].
    + by eapply elem_of_sublist.
    + pose proof (ensure_lead_words d). pose proof (ensure_period_words (ensure_lead d)).
      lia.
Qed.

(** ** The Requirement Formulator *)

Section Formulator.
Import Str StrFacts.

Lemma primary_actor_cases actors :
  primary_actor_of actors = "The customer"
  ∨ primary_actor_of actors = "The administrator"
  ∨ primary_actor_of actors = "The system".
Proof.
  unfold primary_actor_of.
  destruct (any_actor_in _ actors); [by left|].
  destruct (any_actor_in _ actors); [right; by left|right; by right].
Qed.

(** The guard [if actor] of the generator drops no match, the empty text
    being none of the names. *)
Lemma any_actor_in_spec names actors :
  "" ∉ names →
  any_actor_in names actors = true
  ↔ ∃ a, a ∈ actors ∧ lower a ∈ names.
Proof.
  intros Hne. unfold any_actor_in. rewrite existsb_exists. split.
  - intros (a & Ha & Hin). exists a.
    apply list_elem_of_In, list_elem_of_filter in Ha as [_ Ha].
    split; [done|]. by apply bool_decide_eq_true in Hin.
  - intros (a & Ha & Hin). exists a. split; [|by apply bool_decide_eq_true].
    apply list_elem_of_In, list_elem_of_filter. split; [|done].
    intros ->. by apply Hne.
Qed.

Lemma formulate_template_lead req :
  startswith (primary_actor_of (actors_of (doc (feature req))) +:+ " shall ")
             (formulate_template req) = true.
Proof.
  unfold formulate_template.
  destruct (_ && _); rewrite <-str_app_assoc; apply startswith_app.
Qed.

Lemma startswith_app_weaken a b s :
  startswith (a +:+ b) s = true → startswith a s = true.
Proof.
  intros H. rewrite (startswith_split _ _ H), str_app_assoc.
  apply startswith_app.
Qed.

(** Collapsing double spaces and stripping keep "<primary actor> shall". *)
Lemma formulate_cleanup_lead actors s :
  startswith (primary_actor_of actors +:+ " shall ") s = true →
  startswith (primary_actor_of actors +:+ " shall") (formulate_cleanup s) = true.
Proof.
  intros Hs. unfold formulate_cleanup.
  assert (startswith (primary_actor_of actors +:+ " shall ")
            (replace "  " " " s) = true) as Hr.
  { destruct (primary_actor_cases actors) as [E|[E|E]]; rewrite E in *;
      (apply replace_keeps_prefix; [done| |done]); no_early_match. }
  assert (startswith (primary_actor_of actors +:+ " shall")
            (replace "  " " " s) = true) as Hr'.
  { apply (startswith_app_weaken _ " ").
    by rewrite str_app_assoc. }
  destruct (primary_actor_cases actors) as [E|[E|E]]; rewrite E in *;
    (apply strip_keeps_prefix; [|by intros ?? [= <- _]|done]);
    by intros ? [= <-].
Qed.

Lemma add_context_lead p r chunk :
  startswith p r = true → startswith p (add_context r chunk) = true.
Proof.
  intros H. unfold add_context.
  destruct (_ && _); [|done]. destruct (negb _); [|done].
  by apply startswith_app_l.
Qed.

Lemma foldl_add_context_lead p r chunks :
  startswith p r = true → startswith p (foldl add_context r chunks) = true.
Proof.
  revert r; induction chunks as [|c chunks IH]; intros r H; simpl; [done|].
  by apply IH, add_context_lead.
Qed.

Lemma formulate_one_lead req :
  startswith (primary_actor_of (actors_of (doc (feature req))) +:+ " shall")
             (formulate_one req) = true.
Proof.
  unfold formulate_one.
  apply foldl_add_context_lead, formulate_cleanup_lead, formulate_template_lead.
Qed.

End Formulator.

(** C3, as stated, fails: the candidate of a sentence without a verb has an
    actor and objects, and yet its draft is the fall-back template. *)
Lemma formulator_falls_back_without_verb : ¬ short_template_claim room_candidate.
Proof.
  unfold short_template_claim. intros H.
  destruct H as (o & Ho & Ht); [done|done|].
  vm_compute in Ho. injection Ho as <-.
  vm_compute in Ht. discriminate Ht.
Qed.

(** C3, amended.  The action is the first action verb if there is one, else
    the first verb if there is one, else "support".  The draft, before
    clean-up and context, is "<primary actor> shall <action> <first object>"
    when the actors, the list the action is taken from (the action verbs, or
    else the verbs) and the objects are all non-empty; it is "<primary
    actor> shall <action> <lower-cased sentence>" when the actors, that list
    or the objects are empty. *)
Theorem formulator_template_choice (req : Scored) :
  let f := feature req in
  let actors := actors_of (doc f) in
  let objects := objects_of (doc f) in
  let primary_actor := primary_actor_of actors in
  let action := action_of f in
  action = match action_verbs f with
           | a :: _ => a
           | [] => match verbs f with v :: _ => v | [] => "support" end
           end
  ∧ (∀ o rest, actors ≠ [] → action_verbs f ≠ [] ∨ verbs f ≠ [] →
       objects = o :: rest →
       formulate_template req
       = primary_actor +:+ " shall " +:+ action +:+ " " +:+ o)
  ∧ (actors = [] ∨ (action_verbs f = [] ∧ verbs f = []) ∨ objects = [] →
       formulate_template req
       = primary_actor +:+ " shall " +:+ action +:+ " "
         +:+ Str.lower (sentence f)).
Proof.
  intros f actors objects primary_actor action.
  subst action primary_actor. unfold formulate_template, action_of, actions_of.
  fold f. fold actors. fold objects.
  split_and!.
  - by destruct (action_verbs f).
  - intros o rest Ha Hv ->.
    destruct actors; [done|].
    destruct (action_verbs f), (verbs f); simpl; try done. by destruct Hv.
  - intros [->|[[-> ->]| ->]]; simpl; [done| |].
    + by rewrite andb_false_r.
    + by rewrite andb_false_r.
Qed.

(** The two branches, on the candidates of the two parsed sentences. *)
Lemma formulator_template_choice_witness :
  formulate_template fee_candidate = "The customer shall pay the reservation fee"
  ∧ formulate_template room_candidate
    = "The system shall support the machine is in the room for customers".
Proof.
  split.
  - destruct (formulator_template_choice fee_candidate) as (_ & H & _).
    apply (H "the reservation fee" []).
    + vm_compute. discriminate.
    + left. vm_compute. discriminate.
    + vm_compute. reflexivity.
  - destruct (formulator_template_choice room_candidate) as (_ & _ & H).
    apply H. right. left. vm_compute. split; reflexivity.
Defined.

(** The actors are the subject chunks: a name is that of an actor exactly
    when it is that of a noun chunk whose root has the label "nsubj". *)
Lemma actors_are_subject_chunks (d : Doc) (names : list string) :
  (∃ a, a ∈ actors_of d ∧ Str.lower a ∈ names)
  ↔ ∃ chunk, chunk ∈ noun_chunks d
             ∧ dep_ (root chunk) = "nsubj"
             ∧ Str.lower (span_text chunk) ∈ names.
Proof.
  unfold actors_of. split.
  - intros (a & (chunk & -> & [Hdep Hin]%list_elem_of_filter)%list_elem_of_fmap
              & Hname).
    by exists chunk.
  - intros (chunk & Hin & Hdep & Hname). exists (span_text chunk).
    split; [|done]. apply list_elem_of_fmap_2. by apply list_elem_of_filter.
Qed.

(** The priority of the customer over the administrator, on the actors. *)
Lemma primary_actor_priority (actors : list string) :
  let customer_like :=
    ∃ a, a ∈ actors ∧ Str.lower a ∈ ["customer"; "client"; "user"] in
  let administrator_like :=
    ∃ a, a ∈ actors ∧ Str.lower a ∈ ["administrator"; "admin"; "owner"] in
  (customer_like → primary_actor_of actors = "The customer")
  ∧ (¬ customer_like → administrator_like →
     primary_actor_of actors = "The administrator")
  ∧ (¬ customer_like → ¬ administrator_like →
     primary_actor_of actors = "The system").
Proof.
  intros customer_like administrator_like.
  assert ("" ∉ ["customer"; "client"; "user"]) as Hc
    by (intros H; repeat (apply elem_of_cons in H as [H|H]; [discriminate H|]);
        by apply elem_of_nil in H).
  assert ("" ∉ ["administrator"; "admin"; "owner"]) as Ha
    by (intros H; repeat (apply elem_of_cons in H as [H|H]; [discriminate H|]);
        by apply elem_of_nil in H).
  pose proof (any_actor_in_spec _ actors Hc) as Hcust.
  pose proof (any_actor_in_spec _ actors Ha) as Hadm.
  fold customer_like in Hcust. fold administrator_like in Hadm.
  split_and!.
  - intros H%Hcust. unfold primary_actor_of. by rewrite H.
  - intros Hn H%Hadm. unfold primary_actor_of.
    destruct (any_actor_in ["customer"; _; _] actors) eqn:E;
      [exfalso; by apply Hn, Hcust|].
    by rewrite H.
  - intros Hn Hn'. unfold primary_actor_of.
    destruct (any_actor_in ["customer"; _; _] actors) eqn:E;
      [exfalso; by apply Hn, Hcust|].
    destruct (any_actor_in ["administrator"; _; _] actors) eqn:E';
      [exfalso; by apply Hn', Hadm|done].
Qed.

(** C8.  The Formulator returns a non-empty text that starts with "The
    customer", "The administrator" or "The system", namely with the primary
    actor.  The primary actor is "The customer", and the text starts with
    it, if the parse has a noun chunk whose root has the dependency label
    "nsubj" and whose lower-cased text is "customer", "client" or "user";
    else it is "The administrator" if the parse has such a subject chunk
    whose lower-cased text is "administrator", "admin" or "owner"; else it
    is "The system".  The customer wins when both kinds of subject chunk
    occur; chunks with another label do not count. *)
Theorem formulator_lead_is_primary_actor (req : Scored) :
  let chunks := noun_chunks (doc (feature req)) in
  let subject_named (names : list string) :=
    ∃ chunk, chunk ∈ chunks
             ∧ dep_ (root chunk) = "nsubj"
             ∧ Str.lower (span_text chunk) ∈ names in
  let customer_like := subject_named ["customer"; "client"; "user"] in
  let administrator_like := subject_named ["administrator"; "admin"; "owner"] in
  let primary_actor := primary_actor_of (actors_of (doc (feature req))) in
  let r := formulate_one req in
  r ≠ ""
  ∧ (Str.startswith "The customer" r = true
     ∨ Str.startswith "The administrator" r = true
     ∨ Str.startswith "The system" r = true)
  ∧ Str.startswith primary_actor r = true
  ∧ (customer_like →
     primary_actor = "The customer"
     ∧ Str.startswith "The customer" r = true)
  ∧ (¬ customer_like → administrator_like →
     primary_actor = "The administrator"
     ∧ Str.startswith "The administrator" r = true)
  ∧ (¬ customer_like → ¬ administrator_like →
     primary_actor = "The system"
     ∧ Str.startswith "The system" r = true).
Proof.
  intros chunks subject_named customer_like administrator_like primary_actor r.
  assert (Str.startswith primary_actor r = true) as Hlead.
  { apply (startswith_app_weaken _ " shall"), formulate_one_lead. }
  destruct (primary_actor_priority (actors_of (doc (feature req))))
    as (Hcust & Hadm & Hsys).
  pose proof (actors_are_subject_chunks (doc (feature req))
                ["customer"; "client"; "user"]) as Ec.
  pose proof (actors_are_subject_chunks (doc (feature req))
                ["administrator"; "admin"; "owner"]) as Ea.
  fold chunks in Ec, Ea. fold primary_actor in Hcust, Hadm, Hsys.
  split_and!.
  - apply (StrFacts.startswith_nonempty primary_actor); [|done].
    unfold primary_actor.
    by destruct (primary_actor_cases (actors_of (doc (feature req))))
      as [->|[->| ->]].
  - unfold primary_actor in Hlead.
    destruct (primary_actor_cases (actors_of (doc (feature req))))
      as [E|[E|E]]; rewrite E in Hlead; auto.
  - done.
  - intros H. assert (primary_actor = "The customer") as E
      by (by apply Hcust, Ec).
    split; [done|]. by rewrite <-E.
  - intros Hn H. assert (primary_actor = "The administrator") as E.
    { apply Hadm; [|by apply Ea]. intros Hc. by apply Hn, Ec. }
    split; [done|]. by rewrite <-E.
  - intros Hn Hn'. assert (primary_actor = "The system") as E.
    { apply Hsys; intros Hc; [by apply Hn, Ec|by apply Hn', Ea]. }
    split; [done|]. by rewrite <-E.
Qed.

(** With an owner and a customer as subjects, the customer wins. *)
Lemma formulator_lead_is_primary_actor_witness :
  primary_actor_of (actors_of fee_doc) = "The customer"
  ∧ Str.startswith "The customer" (formulate_one fee_candidate) = true.
Proof.
  destruct (formulator_lead_is_primary_actor fee_candidate)
    as (_ & _ & _ & Hcust & _).
  apply Hcust.
  exists {| span_text := "customer";
            root := tk 3 "customer" "customer" "NOUN" "nsubj" 4 "pay" "VERB" |}.
  split; [|split].
  - apply (bool_decide_unpack _). vm_compute. exact I.
  - reflexivity.
  - apply (bool_decide_unpack _). vm_compute. exact I.
Defined.

Example object_chunk_is_no_actor_ex :
  let staff := tk 0 "Staff" "staff" "NOUN" "nsubj" 2 "notify" "VERB" in
  let customer := tk 3 "customer" "customer" "NOUN" "dobj" 2 "notify" "VERB" in
  let d :=
    {| tokens :=
         [staff; tk 1 "must" "must" "AUX" "aux" 2 "notify" "VERB";
          tk 2 "notify" "notify" "VERB" "ROOT" 2 "notify" "VERB"; customer;
          tk 4 "by" "by" "ADP" "prep" 2 "notify" "VERB";
          tk 5 "text" "text" "NOUN" "compound" 6 "message" "NOUN";
          tk 6 "message" "message" "NOUN" "pobj" 4 "by" "ADP"];
       noun_chunks :=
         [{| span_text := "Staff"; root := staff |};
          {| span_text := "customer"; root := customer |};
          {| span_text := "text message";
             root := tk 6 "message" "message" "NOUN" "pobj" 4 "by" "ADP" |}];
       ents := [] |} in
  actors_of d = ["Staff"]
  ∧ formulate_one
      (with_score (features_of "Staff must notify customer by text message" d))
    = "The system shall notify customer for text message".
Proof. vm_compute. by split. Qed.

(** ** The Classifier and the grouping by stakeholder *)

Section Classifier.
Import Str StrFacts.

Lemma contains_any_spec keywords s :
  contains_any keywords s = true
  ↔ ∃ kw, kw ∈ keywords ∧ contains kw s = true.
Proof.
  unfold contains_any. rewrite existsb_exists.
  split; intros (kw & Hin & H); exists kw; by rewrite ?list_elem_of_In in *.
Qed.

(** A loop that appends the image of every element passing a test
    collects the images of the filtered list, in order. *)
Lemma foldl_collect {A B} (P : A → bool) (f : A → B) (l : list A) (acc : list B) :
  foldl (λ acc e, if P e then acc ++ [f e] else acc) acc l
  = acc ++ (f <$> filter (λ e, P e = true) l).
Proof.
  revert acc; induction l as [|e l IH]; intros acc; simpl.
  { by rewrite app_nil_r. }
  rewrite IH, filter_cons. destruct (P e); case_decide; try done.
  by rewrite fmap_cons, <-app_assoc.
Qed.

Lemma matched_categories_filter req :
  matched_categories req
  = fst <$> filter (λ e, contains_any e.2 (lower req) = true) category_keywords.
Proof. unfold matched_categories. by rewrite foldl_collect. Qed.

Lemma stakeholder_of_cases req :
  stakeholder_of req = "Customer"
  ∨ stakeholder_of req = "Administrator"
  ∨ stakeholder_of req = "System".
Proof.
  unfold stakeholder_of. destruct (_ || _); [by left|].
  destruct (_ || _); [right; by left|right; by right].
Qed.

(** The three groups of [extract_and_format] are a rearrangement of the
    classified requirements when no fourth stakeholder occurs. *)
Lemma format_grouped_perm (l : list Classified) :
  Forall (λ c, stakeholder c ∈ ["Customer"; "Administrator"; "System"]) l →
  format_grouped l ≡ₚ requirement <$> l.
Proof.
  unfold format_grouped. rewrite app_nil_l.
  induction 1 as [|c l Hc _ IH]; [done|].
  rewrite !filter_cons, fmap_cons, <-IH.
  repeat (apply elem_of_cons in Hc as [Hc|Hc]);
    [..|by apply elem_of_nil in Hc]; rewrite Hc;
    repeat case_decide; try done; simpl.
  - by rewrite <-Permutation_middle.
  - symmetry. apply Permutation_middle.
Qed.

Lemma contains_refl s : contains s s = true.
Proof.
  destruct s as [|c s]; [done|]. simpl.
  rewrite Ascii.eqb_refl. simpl.
  rewrite <-(str_app_empty_r s) at 2. by rewrite startswith_app.
Qed.

End Classifier.

Section ClassifierRun.

Variable nlp : string → option Doc.

Lemma classify_requirements_Some reqs out :
  classify_requirements nlp reqs = Some out → out = classify_one <$> reqs.
Proof.
  unfold classify_requirements. intros H%mapM_Some_1.
  induction H as [|r c reqs out Hr _ IH]; [done|].
  rewrite fmap_cons, <-IH. f_equal.
  destruct (nlp r); simpl in Hr; by inversion Hr.
Qed.

Lemma classify_requirements_is_Some reqs :
  Forall (λ r, is_Some (nlp r)) reqs →
  is_Some (classify_requirements nlp reqs).
Proof.
  intros H. apply mapM_is_Some_2. eapply Forall_impl; [exact H|].
  intros r [d Hd]. simpl. rewrite Hd. by eexists.
Qed.

End ClassifierRun.

(** C7.  The Classifier gives a requirement the stakeholder "Customer" if
    its lower-cased text contains "customer", "client" or "user", else
    "Administrator" if it contains "administrator", "admin" or "owner", else
    "System"; the type "Non-functional" exactly when it contains one of the
    five quality keywords, else "Functional"; and a non-empty list of
    categories: the taxonomy names with a keyword in the text, in the order
    of the taxonomy, or "General" alone exactly when no keyword of the
    taxonomy is in the text. *)
Theorem classifier_tags (req : string) :
  let t := Str.lower req in
  let c := classify_one req in
  let has kw := Str.contains kw t = true in
  let customer_words := has "customer" ∨ has "client" ∨ has "user" in
  let administrator_words := has "administrator" ∨ has "admin" ∨ has "owner" in
  let quality_words :=
    ∃ kw, kw ∈ ["performance"; "security"; "reliability"; "usability";
                "maintainability"] ∧ has kw in
  let matches (kws : list string) := ∃ kw, kw ∈ kws ∧ has kw in
  (customer_words → stakeholder c = "Customer")
  ∧ (¬ customer_words → administrator_words → stakeholder c = "Administrator")
  ∧ (¬ customer_words → ¬ administrator_words → stakeholder c = "System")
  ∧ (req_type c = "Non-functional" ↔ quality_words)
  ∧ (¬ quality_words → req_type c = "Functional")
  ∧ categories c ≠ []
  ∧ (categories c = ["General"]
     ↔ ∀ name kws, (name, kws) ∈ category_keywords → ¬ matches kws)
  ∧ (∀ name kws, (name, kws) ∈ category_keywords →
       name ∈ categories c ↔ matches kws)
  ∧ (categories c = ["General"]
     ∨ categories c `sublist_of` (fst <$> category_keywords)).
Proof.
  intros t c has customer_words administrator_words quality_words matches.
  assert (∀ kws, Str.contains_any kws t = true ↔ matches kws) as Hany
    by (intros kws; apply contains_any_spec).
  pose proof (matched_categories_filter req) as Hm. fold t in Hm.
  set (M := filter (λ e, Str.contains_any e.2 t = true) category_keywords) in Hm.
  assert (∀ e, e ∈ M ↔ e ∈ category_keywords ∧ matches e.2) as HM.
  { intros e. unfold M. rewrite list_elem_of_filter, Hany. tauto. }
  assert (categories c = if negb (truthy (fst <$> M)) then ["General"] else fst <$> M)
    as Hcat by (simpl; unfold categories_of; by rewrite Hm).
  assert (∀ name name' kws kws', (name, kws) ∈ category_keywords →
            (name', kws') ∈ category_keywords → name = name' → kws = kws')
    as Hfun.
  { intros name name' kws kws' H H' ->. unfold category_keywords in H, H'.
    repeat (apply elem_of_cons in H as [H|H]; [simplify_eq|]);
      try (by apply elem_of_nil in H);
      repeat (apply elem_of_cons in H' as [H'|H']; [by simplify_eq|]);
      by apply elem_of_nil in H'. }
  assert (∀ kws, ("General", kws) ∉ category_keywords) as Hgen.
  { intros kws H. unfold category_keywords in H.
    repeat (apply elem_of_cons in H as [H|H]; [discriminate H|]).
    by apply elem_of_nil in H. }
  split_and!.
  - unfold customer_words, has. intros H. simpl. unfold stakeholder_of. fold t.
    destruct H as [->|[->| ->]]; by rewrite ?orb_true_r.
  - unfold customer_words, administrator_words, has. intros Hn H. simpl.
    unfold stakeholder_of. fold t.
    destruct (Str.contains "customer" t); [tauto|].
    destruct (Str.contains "client" t); [tauto|].
    destruct (Str.contains "user" t); [tauto|]. simpl.
    destruct H as [->|[->| ->]]; by rewrite ?orb_true_r.
  - unfold customer_words, administrator_words, has. intros Hn Hn'. simpl.
    unfold stakeholder_of. fold t.
    destruct (Str.contains "customer" t); [tauto|].
    destruct (Str.contains "client" t); [tauto|].
    destruct (Str.contains "user" t); [tauto|].
    destruct (Str.contains "administrator" t); [tauto|].
    destruct (Str.contains "admin" t); [tauto|].
    destruct (Str.contains "owner" t); [tauto|]. done.
  - simpl. unfold req_type_of. fold t.
    pose proof (Hany non_functional_keywords) as Hq.
    destruct (Str.contains_any non_functional_keywords t).
    + split; [intros _; by apply Hq|done].
    + split; [done|]. intros H. by apply Hq in H.
  - simpl. unfold req_type_of. fold t.
    pose proof (Hany non_functional_keywords) as Hq.
    destruct (Str.contains_any non_functional_keywords t); [|done].
    intros Hn. exfalso. by apply Hn, Hq.
  - rewrite Hcat. by destruct (fst <$> M).
  - rewrite Hcat. split.
    + intros HG name kws Hin Hmatch.
      assert ((name, kws) ∈ M) as HinM by (by apply HM).
      assert (name ∈ fst <$> M) as Hn
        by (apply list_elem_of_fmap; by exists (name, kws)).
      destruct (fst <$> M) as [|n ns]; [by apply elem_of_nil in Hn|].
      simpl in HG. rewrite HG in Hn.
      apply list_elem_of_singleton in Hn as ->. by apply Hgen in Hin.
    + intros Hno. assert (M = []) as EM.
      { apply elem_of_nil_inv. intros [name kws] [Hin Hmatch]%HM.
        by apply (Hno name kws). }
      by rewrite EM.
  - intros name kws Hin. rewrite Hcat. split.
    + destruct (fst <$> M) as [|n ns] eqn:EM; simpl.
      * intros ->%list_elem_of_singleton. by apply Hgen in Hin.
      * rewrite <-EM. intros ([name' kws'] & Hname & [Hin' Hmatch]%HM)%list_elem_of_fmap.
        simpl in *. by rewrite (Hfun name name' kws kws').
    + intros Hmatch. assert ((name, kws) ∈ M) as HinM by (by apply HM).
      assert (name ∈ fst <$> M) as Hn
        by (apply list_elem_of_fmap; by exists (name, kws)).
      destruct (fst <$> M); [by apply elem_of_nil in Hn|done].
  - rewrite Hcat. destruct (fst <$> M) eqn:EM; simpl; [by left|]. right.
    rewrite <-EM. unfold M. apply (fmap_sublist fst _ category_keywords), sublist_filter.
Qed.

(** A requirement of the administrator with a quality keyword. *)
Lemma classifier_tags_witness :
  stakeholder (classify_one "The administrator shall monitor the security camera.")
  = "Administrator"
  ∧ req_type (classify_one "The administrator shall monitor the security camera.")
    = "Non-functional".
Proof.
  destruct (classifier_tags "The administrator shall monitor the security camera.")
    as (_ & Hadm & _ & Htype & _).
  split.
  - apply Hadm.
    + intros [H|[H|H]]; vm_compute in H; discriminate H.
    + left. vm_compute. reflexivity.
  - apply Htype. exists "security". split.
    + apply (bool_decide_unpack _). vm_compute. exact I.
    + vm_compute. reflexivity.
Defined.

(** C10.  The Classifier returns, whenever the parser accepts the
    requirements, one record per requirement, in the same order, whose
    "requirement" field is the input text unchanged. *)
Theorem classifier_keeps_texts (nlp : string → option Doc) (reqs : list string) :
  (Forall (λ r, is_Some (nlp r)) reqs → is_Some (classify_requirements nlp reqs))
  ∧ ∀ out, classify_requirements nlp reqs = Some out →
      length out = length reqs
      ∧ requirement <$> out = reqs
      ∧ ∀ n r, reqs !! n = Some r → requirement <$> out !! n = Some r.
Proof.
  split; [apply classify_requirements_is_Some|].
  intros out ->%classify_requirements_Some.
  assert (requirement <$> (classify_one <$> reqs) = reqs) as Hreq.
  { rewrite <-list_fmap_compose. by rewrite <-(list_fmap_id reqs) at 2. }
  split_and!; [by rewrite length_fmap|done|].
  intros n r Hr. by rewrite <-list_lookup_fmap, Hreq.
Qed.

(** Two requirements through the Classifier over the small engine. *)
Lemma classifier_keeps_texts_witness :
  ∃ out,
    classify_requirements demo_nlp
      ["The system shall pay the fee."; "The system shall view the record."]
    = Some out
    ∧ requirement <$> out
      = ["The system shall pay the fee."; "The system shall view the record."].
Proof.
  destruct (classifier_keeps_texts demo_nlp
              ["The system shall pay the fee."; "The system shall view the record."])
    as [Hsome Hout].
  destruct Hsome as [out Hrun].
  - repeat constructor; vm_compute; by eexists.
  - exists out. split; [exact Hrun|]. by destruct (Hout out Hrun) as (_ & ? & _).
Defined.

(** ** The pipeline as a whole *)

Section PipelineFacts.
Import Str StrFacts.

Variable sent_tokenize : string → list string.
Variable nlp : string → option Doc.

(** A description made of whitespace leaves no sentence, as long as the
    tokenizer returns pieces of the text it is given. *)
Lemma preprocess_text_all_space text :
  (∀ t s, s ∈ sent_tokenize t → contains s t = true) →
  all_space text = true →
  preprocess_text sent_tokenize text = [].
Proof.
  intros Hspans Hws. unfold preprocess_text.
  apply elem_of_nil_inv. intros s [Hlen Hin]%list_elem_of_filter.
  apply Hspans in Hin.
  assert (all_space s = true) as Hs.
  { eapply all_space_contains; [exact Hin|].
    by apply all_space_collapse_go. }
  rewrite (split_all_space s Hs) in Hlen. simpl in Hlen. lia.
Qed.

Lemma extract_requirements_stakeholders description classified :
  extract_requirements sent_tokenize nlp description = Some classified →
  Forall (λ c, stakeholder c ∈ ["Customer"; "Administrator"; "System"])
         classified.
Proof.
  unfold extract_requirements.
  destruct (extract_features _ _) as [features|]; simpl; [|done].
  intros ->%classify_requirements_Some.
  apply Forall_fmap, Forall_forall. intros r _. simpl.
  destruct (stakeholder_of_cases r) as [->|[->| ->]];
    repeat first [apply list_elem_of_here | apply list_elem_of_further].
Qed.

End PipelineFacts.

(** C6.  When [extract_requirements] returns classified requirements,
    [extract_and_format] returns their texts regrouped: those classified
    "Customer", then those classified "Administrator", then those classified
    "System", each group in the order of [extract_requirements]; every
    requirement is in exactly one group, so the result is a rearrangement of
    all the texts.  When the parser fails, both fail. *)
Theorem format_regroups_by_stakeholder
    (sent_tokenize : string → list string) (nlp : string → option Doc)
    (description : string) :
  match extract_requirements sent_tokenize nlp description with
  | Some classified =>
      let group name := filter (λ c, stakeholder c = name) classified in
      extract_and_format sent_tokenize nlp description
      = Some ((requirement <$> group "Customer")
              ++ (requirement <$> group "Administrator")
              ++ (requirement <$> group "System"))
      ∧ (requirement <$> group "Customer")
        ++ (requirement <$> group "Administrator")
        ++ (requirement <$> group "System")
        ≡ₚ requirement <$> classified
      ∧ Forall (λ c, stakeholder c = "Customer"
                     ∨ stakeholder c = "Administrator"
                     ∨ stakeholder c = "System") classified
  | None => extract_and_format sent_tokenize nlp description = None
  end.
Proof.
  unfold extract_and_format.
  destruct (extract_requirements sent_tokenize nlp description)
    as [classified|] eqn:E; simpl; [|done].
  pose proof (extract_requirements_stakeholders _ _ _ _ E) as Hall.
  split_and!.
  - unfold format_grouped. by rewrite app_nil_l, <-app_assoc.
  - rewrite <-(format_grouped_perm classified Hall).
    unfold format_grouped. by rewrite app_nil_l, <-app_assoc.
  - eapply Forall_impl; [exact Hall|]. intros c Hc. simpl in Hc.
    repeat (apply elem_of_cons in Hc as [Hc|Hc]; [by auto|]).
    by apply elem_of_nil in Hc.
Qed.

(** C9.  For an empty description, or one made of whitespace only, the
    Segmenter yields no sentence and [extract_requirements] returns the
    empty list: the parser is not called, so that it cannot fail.  The
    tokenizer is assumed to return pieces of the text it is given. *)
Theorem degenerate_description_yields_nothing
    (sent_tokenize : string → list string) (nlp : string → option Doc)
    (description : string) :
  (∀ t s, s ∈ sent_tokenize t → Str.contains s t = true) →
  Str.all_space description = true →
  preprocess_text sent_tokenize description = []
  ∧ extract_requirements sent_tokenize nlp description = Some []
  ∧ extract_and_format sent_tokenize nlp description = Some [].
Proof.
  intros Hspans Hws.
  pose proof (preprocess_text_all_space sent_tokenize description Hspans Hws) as E.
  unfold extract_and_format, extract_requirements. rewrite E. by split_and!.
Qed.

(** The small tokenizer returns pieces of its input. *)
Lemma demo_sent_tokenize_spans t s :
  s ∈ demo_sent_tokenize t → Str.contains s t = true.
Proof.
  unfold demo_sent_tokenize. case_decide as Ht.
  - subst t. intros Hs.
    repeat (apply elem_of_cons in Hs as [->|Hs]; [by vm_compute|]).
    by apply elem_of_nil in Hs.
  - intros ->%list_elem_of_singleton. apply contains_refl.
Qed.

(** Blanks and a line break, and the empty text, with a parser that always
    fails. *)
Lemma degenerate_description_yields_nothing_witness :
  preprocess_text demo_sent_tokenize "  
 " = []
  ∧ extract_requirements demo_sent_tokenize (λ _, None) "  
 " = Some []
  ∧ extract_requirements demo_sent_tokenize (λ _, None) "" = Some [].
Proof.
  destruct (degenerate_description_yields_nothing demo_sent_tokenize
              (λ _, None) "  
 " demo_sent_tokenize_spans) as (H1 & H2 & _); [vm_compute; reflexivity|].
  destruct (degenerate_description_yields_nothing demo_sent_tokenize
              (λ _, None) "" demo_sent_tokenize_spans) as (_ & H3 & _);
    [vm_compute; reflexivity|].
  split; [exact H1|]. split; [exact H2|exact H3].
Defined.

(** * Further properties of the code *)

(** ** The Segmenter *)

Section Segmenter.
Import Str StrFacts.

Lemma split_go_collapse s cur b :
  (b = true → cur = None) →
  split_go cur (collapse_ws_go b s) = split_go cur s.
Proof.
  revert cur b; induction s as [|c s IH]; intros cur b Hb; [done|].
  simpl. destruct (is_space c) eqn:Hc.
  - destruct b.
    + rewrite (Hb eq_refl). simpl. by apply IH.
    + simpl. f_equal. by apply IH.
  - simpl. rewrite Hc. by apply IH.
Qed.

Lemma collapse_ws_go_idemp b s :
  collapse_ws_go b (collapse_ws_go b s) = collapse_ws_go b s.
Proof.
  revert b; induction s as [|c s IH]; intros b; [done|].
  simpl. destruct (is_space c) eqn:Hc.
  - destruct b; [apply IH|]. simpl. f_equal. apply IH.
  - simpl. rewrite Hc. f_equal. apply IH.
Qed.

Lemma collapse_ws_go_single_spaced b s :
  single_spaced b (collapse_ws_go b s) = true.
Proof.
  revert b; induction s as [|c s IH]; intros b; [done|].
  simpl. destruct (is_space c) eqn:Hc.
  - destruct b; [apply IH|]. simpl. apply IH.
  - simpl. rewrite Hc. apply IH.
Qed.

End Segmenter.

(** X1.  Collapsing the runs of whitespace changes no word of the text,
    leaves single spaces as the only whitespace, and does nothing when
    it is done again. *)
Theorem cleaning_keeps_words (text : string) :
  Str.split (Str.collapse_ws text) = Str.split text
  ∧ Str.single_spaced false (Str.collapse_ws text) = true
  ∧ Str.collapse_ws (Str.collapse_ws text) = Str.collapse_ws text.
Proof.
  split_and!.
  - by apply split_go_collapse.
  - apply collapse_ws_go_single_spaced.
  - apply collapse_ws_go_idemp.
Qed.

(** X2.  The Segmenter returns, in the tokenizer's order, exactly the
    sentences of the cleaned text that have more than five words, and the
    result does not depend on how the whitespace of the description is laid
    out. *)
Theorem segmenter_keeps_long_sentences
    (sent_tokenize : string → list string) (text : string) :
  let sentences := sent_tokenize (Str.collapse_ws text) in
  let kept := preprocess_text sent_tokenize text in
  kept `sublist_of` sentences
  ∧ Forall (λ s, (5 < length (Str.split s))%nat) kept
  ∧ Forall (λ s, s ∈ kept ∨ (length (Str.split s) ≤ 5)%nat) sentences
  ∧ preprocess_text sent_tokenize (Str.collapse_ws text) = kept.
Proof.
  intros sentences kept. subst sentences kept. unfold preprocess_text.
  split_and!.
  - apply sublist_filter.
  - apply Forall_forall. by intros s [? _]%list_elem_of_filter.
  - apply Forall_forall. intros s Hs.
    destruct (decide (5 < length (Str.split s))%nat); [left|right; lia].
    by apply list_elem_of_filter.
  - unfold Str.collapse_ws. by rewrite collapse_ws_go_idemp.
Qed.

(** ** Failures of the parser *)

Section ParserFailure.

Variable sent_tokenize : string → list string.
Variable nlp : string → option Doc.

Lemma mapM_parse_None {B} (g : string → Doc → B) (l : list string) :
  mapM (λ x, d ← nlp x; Some (g x d)) l = None
  ↔ ∃ x, x ∈ l ∧ nlp x = None.
Proof.
  rewrite mapM_None, Exists_exists. split.
  - intros (x & Hx & Hnone). exists x. split; [done|].
    by destruct (nlp x).
  - intros (x & Hx & Hnone). exists x. split; [done|]. by rewrite Hnone.
Qed.

Lemma extract_features_shape sentences features :
  extract_features nlp sentences = Some features →
  Forall2 (λ s f, ∃ d, nlp s = Some d ∧ f = features_of s d) sentences features.
Proof.
  unfold extract_features. intros H%mapM_Some_1.
  eapply Forall2_impl; [exact H|]. intros s f Hf. simpl in Hf.
  destruct (nlp s) as [d|]; [|done]. exists d. split; [done|].
  by injection Hf as <-.
Qed.

Lemma extract_requirements_None description :
  let sentences := preprocess_text sent_tokenize description in
  extract_requirements sent_tokenize nlp description = None
  ↔ (∃ s, s ∈ sentences ∧ nlp s = None)
    ∨ (∃ features r,
         extract_features nlp sentences = Some features
         ∧ r ∈ refine_requirements
                 (formulate_requirements
                    (identify_potential_requirements features))
         ∧ nlp r = None).
Proof.
  intros sentences. unfold extract_requirements. fold sentences.
  destruct (extract_features nlp sentences) as [features|] eqn:E; simpl.
  - unfold classify_requirements. rewrite mapM_parse_None. split.
    + intros (r & Hr & Hnone). right. by exists features, r.
    + intros [(s & Hs & Hnone)|(features' & r & [= <-] & Hr & Hnone)].
      * exfalso. unfold extract_features in E.
        assert (mapM (λ x, d ← nlp x; Some (features_of x d)) sentences = None)
          as E' by (apply mapM_parse_None; by exists s).
        by rewrite E in E'.
      * by exists r.
  - split; [intros _; left|done].
    by apply (mapM_parse_None features_of).
Qed.

End ParserFailure.

(** X3.  When no sentence of the description has more than five words, the
    pipeline returns the empty list and never needs the parser. *)
Theorem short_sentences_need_no_parser
    (sent_tokenize : string → list string) (nlp : string → option Doc)
    (description : string) :
  Forall (λ s, (length (Str.split s) ≤ 5)%nat)
         (sent_tokenize (Str.collapse_ws description)) →
  extract_requirements sent_tokenize nlp description = Some []
  ∧ extract_and_format sent_tokenize nlp description = Some [].
Proof.
  intros Hshort.
  assert (preprocess_text sent_tokenize description = []) as E.
  { unfold preprocess_text. apply elem_of_nil_inv.
    intros s [Hlen Hin]%list_elem_of_filter.
    apply (proj1 (Forall_forall _ _) Hshort) in Hin. lia. }
  unfold extract_and_format, extract_requirements. by rewrite E.
Qed.

(** "Fix the pump." with a parser that rejects everything. *)
Lemma short_sentences_need_no_parser_witness :
  extract_requirements demo_sent_tokenize (λ _, None) "Fix   the pump." = Some [].
Proof.
  apply (short_sentences_need_no_parser demo_sent_tokenize (λ _, None)
           "Fix   the pump.").
  vm_compute. repeat constructor.
Defined.

(** X4.  The pipeline fails exactly when the parser rejects a sentence kept
    by the Segmenter or, all of these being parsed, a refined requirement. *)
Theorem pipeline_fails_with_parser
    (sent_tokenize : string → list string) (nlp : string → option Doc)
    (description : string) :
  let sentences := preprocess_text sent_tokenize description in
  extract_requirements sent_tokenize nlp description = None
  ↔ (∃ s, s ∈ sentences ∧ nlp s = None)
    ∨ (∃ features r,
         extract_features nlp sentences = Some features
         ∧ r ∈ refine_requirements
                 (formulate_requirements
                    (identify_potential_requirements features))
         ∧ nlp r = None).
Proof. apply extract_requirements_None. Qed.

Example strict_parser_run_ex :
  extract_features strict_nlp (preprocess_text demo_sent_tokenize demo_description)
  ≠ None
  ∧ extract_requirements demo_sent_tokenize strict_nlp demo_description = None
  ∧ extract_and_format demo_sent_tokenize strict_nlp demo_description = None.
Proof. vm_compute. by repeat split. Qed.

(** ** The Feature Extractor *)

(** X6.  When it returns, the Feature Extractor gives one record per
    sentence, in order, holding the sentence and its parse; the action verbs
    of a record are a subsequence of its verbs and belong to the action
    vocabulary, and its modals, lower-cased, to the modal vocabulary.  It
    fails exactly when the parser rejects one of the sentences. *)
Theorem feature_extraction_shape
    (nlp : string → option Doc) (sentences : list string) :
  match extract_features nlp sentences with
  | Some features =>
      sentence <$> features = sentences
      ∧ Forall (λ f,
            nlp (sentence f) = Some (doc f)
            ∧ action_verbs f `sublist_of` verbs f
            ∧ Forall (λ v, v ∈ action_vocabulary) (action_verbs f)
            ∧ Forall (λ m, Str.lower m ∈ modal_vocabulary) (modals f))
          features
  | None => ∃ s, s ∈ sentences ∧ nlp s = None
  end.
Proof.
  destruct (extract_features nlp sentences) as [features|] eqn:E.
  - apply extract_features_shape in E.
    induction E as [|s f sentences features (d & Hd & ->) _ [IH1 IH2]];
      [by split|].
    split; [by rewrite fmap_cons, IH1|].
    constructor; [|done]. simpl. split_and!.
    + done.
    + apply sublist_filter.
    + apply Forall_forall. by intros v [? _]%list_elem_of_filter.
    + apply Forall_fmap, Forall_forall.
      by intros t [[_ ?] _]%list_elem_of_filter.
  - by apply (mapM_parse_None nlp features_of).
Qed.

(** X7.  On the record of a parsed sentence, the action of the Formulator
    is in the action vocabulary, or else no verb of the sentence is and the
    action is its first verb; it is "support" when the sentence has no
    verb. *)
Theorem action_comes_from_the_verbs (s : string) (d : Doc) :
  let f := features_of s d in
  (action_of f ∈ action_vocabulary
   ∨ (Forall (λ v, v ∉ action_vocabulary) (verbs f)
      ∧ head (verbs f) = Some (action_of f)))
  ∧ (action_of f ∈ verbs f ∨ (verbs f = [] ∧ action_of f = "support")).
Proof.
  intros f. unfold action_of, actions_of. subst f. simpl.
  set (vs := lemma_ <$> filter (λ token, pos_ token = "VERB") (tokens d)).
  destruct (filter (λ v, v ∈ action_vocabulary) vs) as [|a avs] eqn:E; simpl.
  - assert (Forall (λ v, v ∉ action_vocabulary) vs) as Hnone.
    { apply Forall_forall. intros v Hv Hin.
      by apply (filter_nil_not_elem_of _ _ v E). }
    destruct vs as [|v vs'].
    + split; [left|by right].
      unfold action_vocabulary.
      repeat first [apply list_elem_of_here | apply list_elem_of_further].
    + split; [by right|left; apply list_elem_of_here].
  - assert (a ∈ filter (λ v, v ∈ action_vocabulary) vs) as [Ha Hin]%list_elem_of_filter
      by (rewrite E; apply list_elem_of_here).
    split; by left.
Qed.

(** ** The context loop of the Formulator *)

Section Context.
Import Str StrFacts.

Lemma startswith_refl s : startswith s s = true.
Proof. rewrite <-(str_app_empty_r s) at 2. apply startswith_app. Qed.

Lemma contains_app_l x r t :
  contains x r = true → contains x (r +:+ t) = true.
Proof.
  induction r as [|c r IH]; simpl.
  - rewrite orb_false_r. destruct x; [|done]. intros _. by destruct t.
  - intros [H|H]%orb_true_iff.
    + by rewrite <-str_app_cons, (startswith_app_l _ _ _ H).
    + by rewrite (IH H), orb_true_r.
Qed.

Lemma contains_app_r x a t :
  contains x t = true → contains x (a +:+ t) = true.
Proof.
  intros H. induction a as [|c a IH]; [done|].
  rewrite str_app_cons.
  change (contains x (String c (a +:+ t)))
    with (startswith x (String c (a +:+ t)) || contains x (a +:+ t)).
  by rewrite IH, orb_true_r.
Qed.

Lemma add_context_period r chunk :
  endswith "." r = true → add_context r chunk = r.
Proof.
  intros H. unfold add_context. rewrite H. simpl.
  by destruct (_ && _).
Qed.

Lemma foldl_add_context_period r chunks :
  endswith "." r = true → foldl add_context r chunks = r.
Proof.
  intros H. induction chunks as [|c chunks IH]; simpl; [done|].
  by rewrite add_context_period.
Qed.

Lemma add_context_keeps x r chunk :
  contains x r = true ∨ endswith "." r = true →
  contains x (add_context r chunk) = true
  ∨ endswith "." (add_context r chunk) = true.
Proof.
  intros [H|H]; [|rewrite add_context_period by done; by right].
  left. unfold add_context. destruct (_ && _); [|done].
  destruct (negb _); [|done]. by apply contains_app_l.
Qed.

Lemma add_context_covers r chunk :
  dep_ (root chunk) = "pobj" →
  contains (span_text chunk) (add_context r chunk) = true
  ∨ endswith "." (add_context r chunk) = true.
Proof.
  intros Hdep. unfold add_context. rewrite Hdep. simpl.
  destruct (contains (span_text chunk) r) eqn:Hc; simpl; [by left|].
  destruct (endswith "." r) eqn:He; simpl; [by right|].
  left. apply contains_app_r, contains_app_r, contains_refl.
Qed.

Lemma foldl_add_context_keeps x r chunks :
  contains x r = true ∨ endswith "." r = true →
  contains x (foldl add_context r chunks) = true
  ∨ endswith "." (foldl add_context r chunks) = true.
Proof.
  revert r; induction chunks as [|c chunks IH]; intros r H; simpl; [done|].
  by apply IH, add_context_keeps.
Qed.

Lemma foldl_add_context_covers r chunks chunk :
  chunk ∈ chunks → dep_ (root chunk) = "pobj" →
  contains (span_text chunk) (foldl add_context r chunks) = true
  ∨ endswith "." (foldl add_context r chunks) = true.
Proof.
  intros (l1 & l2 & ->)%list_elem_of_split Hdep.
  rewrite foldl_app. simpl.
  by apply foldl_add_context_keeps, add_context_covers.
Qed.

End Context.

(** X8.  The context loop only appends: the cleaned draft is a prefix of
    the formulated requirement, and a cleaned draft that ends with a period
    is returned as it is. *)
Theorem context_only_appends (req : Scored) :
  let draft := formulate_cleanup (formulate_template req) in
  Str.startswith draft (formulate_one req) = true
  ∧ (Str.endswith "." draft = true → formulate_one req = draft).
Proof.
  intros draft. unfold formulate_one. fold draft. split.
  - apply foldl_add_context_lead, startswith_refl.
  - apply foldl_add_context_period.
Qed.

(** A sentence with its period, taken whole into the draft. *)
Lemma context_only_appends_witness :
  formulate_one
    (with_score (features_of "The machine is in the room for customers." room_doc))
  = "The system shall support the machine is in the room for customers.".
Proof.
  destruct (context_only_appends
              (with_score (features_of "The machine is in the room for customers."
                                       room_doc))) as [_ H].
  rewrite H; vm_compute; reflexivity.
Defined.

(** X9.  After the context loop, the text of every noun chunk whose root
    is a prepositional object occurs in the requirement, unless the
    requirement ends with a period. *)
Theorem context_covers_prepositional_objects (req : Scored) :
  Forall (λ chunk,
      dep_ (root chunk) ≠ "pobj"
      ∨ Str.contains (span_text chunk) (formulate_one req) = true
      ∨ Str.endswith "." (formulate_one req) = true)
    (noun_chunks (doc (feature req))).
Proof.
  apply Forall_forall. intros chunk Hin.
  destruct (decide (dep_ (root chunk) = "pobj")) as [Hdep|]; [right|by left].
  by apply foldl_add_context_covers.
Qed.

(** ** Deduplication and comparison keys *)

Section Dedup.
Import Str StrFacts.

Lemma unique_reqs_go_fixed seen l :
  NoDup (simple_req <$> l) →
  Forall (λ d, (simple_req d ∉ seen) ∧ (4 < length (split d))%nat) l →
  unique_reqs_go seen l = l.
Proof.
  revert seen; induction l as [|d l IH]; intros seen Hnd Hall; [done|].
  rewrite fmap_cons in Hnd. apply NoDup_cons in Hnd as [Hd Hnd].
  apply Forall_cons in Hall as [[Hnew Hw] Hall].
  simpl. rewrite bool_decide_eq_true_2 by done. f_equal.
  apply IH; [done|].
  apply Forall_forall. intros d' Hin.
  pose proof (proj1 (Forall_forall _ _) Hall d' Hin) as [Hnew' Hw'].
  split; [|done]. intros [Heq%elem_of_singleton|?]%elem_of_union; [|done].
  apply Hd. rewrite <-Heq. by apply list_elem_of_fmap_2.
Qed.

Lemma unique_reqs_go_app seen l1 l2 :
  unique_reqs_go seen (l1 ++ l2)
  = unique_reqs_go seen l1
    ++ unique_reqs_go
         (list_to_set (simple_req <$> unique_reqs_go seen l1) ∪ seen) l2.
Proof.
  revert seen; induction l1 as [|d l1 IH]; intros seen; simpl.
  { by rewrite (left_id_L ∅ (∪)). }
  case_bool_decide; [|apply IH].
  rewrite fmap_cons. simpl. f_equal. rewrite IH. do 2 f_equal.
  rewrite (comm_L (∪) {[simple_req d]} (list_to_set _)).
  by rewrite (assoc_L (∪)).
Qed.

Lemma lower_char_idemp c : lower_char (lower_char c) = lower_char c.
Proof. by destruct c as [[] [] [] [] [] [] [] []]. Qed.

Lemma lower_idemp s : lower (lower s) = lower s.
Proof.
  induction s as [|c s IH]; [done|]. simpl. by rewrite lower_char_idemp, IH.
Qed.

Lemma lower_char_alnum c :
  is_alnum (lower_char c) = true → is_lower_alnum (lower_char c) = true.
Proof. by destruct c as [[] [] [] [] [] [] [] []]. Qed.

Lemma strip_non_alnum_app a b :
  strip_non_alnum (a +:+ b) = strip_non_alnum a +:+ strip_non_alnum b.
Proof.
  induction a as [|c a IH]; [done|]. rewrite str_app_cons. simpl.
  destruct (is_alnum c); by rewrite IH.
Qed.

Lemma simple_req_app a b : simple_req (a +:+ b) = simple_req a +:+ simple_req b.
Proof. unfold simple_req. by rewrite lower_app, strip_non_alnum_app. Qed.

End Dedup.

(** X10.  Deduplication is idempotent: the drafts the Refiner keeps are all
    kept when they are given to it again, so that refining them gives the
    same output. *)
Theorem dedup_is_idempotent (drafts : list string) :
  unique_reqs (unique_reqs drafts) = unique_reqs drafts
  ∧ refine_requirements (unique_reqs drafts) = refine_requirements drafts.
Proof.
  assert (unique_reqs (unique_reqs drafts) = unique_reqs drafts) as E.
  { destruct (unique_reqs_go_spec ∅ drafts) as (Hnd & Hall & _ & _).
    by apply unique_reqs_go_fixed. }
  split; [done|]. unfold refine_requirements. by rewrite E.
Qed.

(** X11.  The draft kept for a comparison key is the first one: a draft of
    more than four words whose key no earlier draft has is kept, after the
    drafts kept before it, and no later draft with its key is kept. *)
Theorem dedup_keeps_first_occurrence (l1 l2 : list string) (d : string) :
  (4 < length (Str.split d))%nat →
  simple_req d ∉ simple_req <$> l1 →
  ∃ k2, unique_reqs (l1 ++ d :: l2) = unique_reqs l1 ++ d :: k2
        ∧ k2 `sublist_of` l2
        ∧ simple_req d ∉ simple_req <$> k2.
Proof.
  intros Hw Hnew. unfold unique_reqs. rewrite unique_reqs_go_app.
  set (seen := list_to_set (simple_req <$> unique_reqs_go ∅ l1) ∪ ∅).
  assert (simple_req d ∉ seen) as Hseen.
  { unfold seen. rewrite (right_id_L ∅ (∪)), elem_of_list_to_set.
    intros (d' & Heq & Hin)%list_elem_of_fmap. apply Hnew.
    rewrite Heq. apply list_elem_of_fmap_2.
    destruct (unique_reqs_go_spec ∅ l1) as (_ & _ & Hsub & _).
    by eapply elem_of_sublist. }
  simpl. rewrite bool_decide_eq_true_2 by done.
  eexists. split; [done|].
  destruct (unique_reqs_go_spec ({[simple_req d]} ∪ seen) l2)
    as (_ & Hall & Hsub & _).
  split; [done|].
  intros (d' & Heq & Hin)%list_elem_of_fmap.
  apply (proj1 (Forall_forall _ _) Hall) in Hin as [Hin _].
  apply Hin. rewrite <-Heq. by apply elem_of_union_l, elem_of_singleton.
Qed.

(** A short draft first, then two drafts that differ in case and
    punctuation only. *)
Lemma dedup_keeps_first_occurrence_witness :
  ∃ k2, unique_reqs (["too short"] ++ "The system shall do x y"
                       :: ["the SYSTEM shall do x, y!"])
        = unique_reqs ["too short"] ++ "The system shall do x y" :: k2
        ∧ k2 `sublist_of` ["the SYSTEM shall do x, y!"]
        ∧ simple_req "The system shall do x y" ∉ simple_req <$> k2.
Proof.
  apply (dedup_keeps_first_occurrence ["too short"]
           ["the SYSTEM shall do x, y!"] "The system shall do x y").
  - vm_compute. lia.
  - apply (bool_decide_unpack _). vm_compute. exact I.
Defined.

(** X12.  A comparison key is made of the characters a-z and 0-9 only; it
    is the same for a draft and its lower-cased form, and for a draft with
    and without the final period that normalization adds. *)
Theorem comparison_key_ignores_case_and_period (req : string) :
  Str.all_chars Str.is_lower_alnum (simple_req req) = true
  ∧ simple_req (Str.lower req) = simple_req req
  ∧ simple_req (ensure_period req) = simple_req req.
Proof.
  split_and!.
  - unfold simple_req. induction req as [|c req IH]; [done|]. simpl.
    destruct (Str.is_alnum (Str.lower_char c)) eqn:E; [|done]. simpl.
    by rewrite lower_char_alnum, IH.
  - unfold simple_req. by rewrite lower_idemp.
  - unfold ensure_period. destruct (negb _); [|done].
    rewrite simple_req_app. apply StrFacts.str_app_empty_r.
Qed.

(** ** Formulator and Refiner together *)

Section FormulatedDrafts.
Import Str StrFacts.

(** A draft that starts with "The customer shall" or "The administrator
    shall" has none of the approved lead phrases. *)
Lemma has_lead_phrase_of_draft actors r :
  startswith (primary_actor_of actors +:+ " shall") r = true →
  has_lead_phrase r
  = bool_decide (primary_actor_of actors = "The system").
Proof.
  intros Hr. rewrite (startswith_split _ _ Hr).
  unfold has_lead_phrase, lead_phrases. rewrite lower_app.
  by destruct (primary_actor_cases actors) as [->|[->| ->]].
Qed.

Lemma ensure_lead_of_draft req :
  ensure_lead (formulate_one req)
  = if bool_decide (primary_actor_of (actors_of (doc (feature req)))
                    = "The system")
    then formulate_one req
    else "The system shall " +:+ formulate_one req.
Proof.
  unfold ensure_lead.
  rewrite (has_lead_phrase_of_draft _ _ (formulate_one_lead req)).
  by case_bool_decide.
Qed.

Lemma fix_common_issues_system_shall r :
  startswith "The system shall" r = true →
  startswith "The system shall" (fix_common_issues r) = true.
Proof.
  intros H. unfold fix_common_issues.
  repeat (apply replace_keeps_prefix; [done| |]); [..|done]; no_early_match.
Qed.

Lemma normalize_draft_system_shall req :
  startswith "The system shall" (normalize (formulate_one req)) = true.
Proof.
  unfold normalize. apply fix_common_issues_system_shall.
  unfold ensure_period. rewrite ensure_lead_of_draft.
  pose proof (formulate_one_lead req) as Hlead.
  assert (startswith "The system shall"
            (if bool_decide (primary_actor_of (actors_of (doc (feature req)))
                             = "The system")
             then formulate_one req
             else "The system shall " +:+ formulate_one req) = true) as H.
  { case_bool_decide as E; [by rewrite E in Hlead|].
    by apply (startswith_app "The system shall" (String " " _)). }
  destruct (negb _); [by apply startswith_app_l|done].
Qed.

Lemma refined_drafts_system_shall potential_reqs :
  Forall (λ r, startswith "The system shall" r = true
               ∧ endswith "." r = true)
         (refine_requirements (formulate_requirements potential_reqs)).
Proof.
  unfold refine_requirements, formulate_requirements.
  apply Forall_fmap, Forall_forall. intros d Hd. simpl.
  destruct (unique_reqs_go_spec ∅ (formulate_one <$> potential_reqs))
    as (_ & _ & Hsub & _).
  apply (elem_of_sublist _ _ _ Hd), list_elem_of_fmap in Hsub
    as (req & -> & _).
  split; [apply normalize_draft_system_shall|apply normalize_endswith].
Qed.

End FormulatedDrafts.

(** X13.  Every requirement that the Refiner makes of formulated drafts,
    hence every requirement text the pipeline returns, starts with "The
    system shall" and ends with a period, whatever the primary actor of the
    draft was. *)
Theorem pipeline_requirements_start_with_system_shall
    (sent_tokenize : string → list string) (nlp : string → option Doc)
    (description : string) (potential_reqs : list Scored) :
  Forall (λ r, Str.startswith "The system shall" r = true
               ∧ Str.endswith "." r = true)
         (refine_requirements (formulate_requirements potential_reqs))
  ∧ match extract_requirements sent_tokenize nlp description with
    | Some classified =>
        Forall (λ c, Str.startswith "The system shall" (requirement c) = true
                     ∧ Str.endswith "." (requirement c) = true) classified
    | None => True
    end.
Proof.
  split; [apply refined_drafts_system_shall|].
  unfold extract_requirements.
  destruct (extract_features nlp _) as [features|]; simpl; [|done].
  destruct (classify_requirements nlp _) as [classified|] eqn:E; [|done].
  apply classify_requirements_Some in E as ->.
  apply Forall_fmap. simpl. apply refined_drafts_system_shall.
Qed.

(** X14.  The Refiner leaves the lead of a formulated draft alone only when
    its primary actor is "The system"; a draft of the customer or the
    administrator gets "The system shall " in front of its own lead. *)
Theorem refiner_lead_of_formulated_draft (req : Scored) :
  let primary_actor := primary_actor_of (actors_of (doc (feature req))) in
  ensure_lead (formulate_one req)
  = if bool_decide (primary_actor = "The system")
    then formulate_one req
    else "The system shall " +:+ formulate_one req.
Proof. apply ensure_lead_of_draft. Qed.

(** ** More on the Classifier *)

Section ClassifierMore.
Import Str StrFacts.

Lemma categories_of_NoDup req :
  NoDup (categories_of req) ∧ (1 ≤ length (categories_of req) ≤ 7)%nat.
Proof.
  unfold categories_of. rewrite matched_categories_filter.
  set (M := filter _ category_keywords).
  assert (fst <$> M `sublist_of` fst <$> category_keywords) as Hsub
    by apply (fmap_sublist fst _ category_keywords), sublist_filter.
  destruct (fst <$> M) as [|n ns] eqn:E; simpl.
  { split; [apply NoDup_singleton|lia]. }
  split.
  - eapply sublist_NoDup; [|exact Hsub].
    apply (bool_decide_unpack _). by vm_compute.
  - apply sublist_length in Hsub. simpl in Hsub. simpl. lia.
Qed.

End ClassifierMore.

(** X15.  The tags of a requirement do not depend on the case of its
    letters: the lower-cased text gets the same stakeholder, type and
    categories. *)
Theorem classifier_ignores_case (req : string) :
  stakeholder (classify_one (Str.lower req)) = stakeholder (classify_one req)
  ∧ req_type (classify_one (Str.lower req)) = req_type (classify_one req)
  ∧ categories (classify_one (Str.lower req)) = categories (classify_one req).
Proof.
  simpl. unfold stakeholder_of, req_type_of, categories_of, matched_categories.
  by rewrite !lower_idemp.
Qed.

(** X16.  The Classifier lists no category twice and at most the seven of
    the taxonomy; the stakeholder is one of three and the type one of two
    fixed values. *)
Theorem classifier_tag_ranges (req : string) :
  let c := classify_one req in
  NoDup (categories c)
  ∧ (1 ≤ length (categories c) ≤ 7)%nat
  ∧ stakeholder c ∈ ["Customer"; "Administrator"; "System"]
  ∧ req_type c ∈ ["Functional"; "Non-functional"].
Proof.
  simpl. destruct (categories_of_NoDup req) as [Hnd Hlen]. split_and!.
  - done.
  - lia.
  - lia.
  - destruct (stakeholder_of_cases req) as [->|[->| ->]];
      repeat first [apply list_elem_of_here | apply list_elem_of_further].
  - unfold req_type_of. destruct (Str.contains_any _ _);
      repeat first [apply list_elem_of_here | apply list_elem_of_further].
Qed.

(** ** More on the Requirement Scorer *)

Section ScorerMore.

Lemma sort_desc_sorted_id (l : list Scored) :
  StronglySorted score_ge l → sort_desc l = l.
Proof.
  induction l as [|x l IH]; intros Hl; [done|].
  apply StronglySorted_cons in Hl as [Hx Hl]. simpl. rewrite (IH Hl).
  destruct l as [|y l']; [done|]. simpl.
  apply Forall_cons in Hx as [Hxy _]. by rewrite bool_decide_eq_true_2.
Qed.

Lemma identify_length features :
  (length (identify_potential_requirements features) ≤ length features)%nat.
Proof.
  unfold identify_potential_requirements.
  etrans; [apply length_filter|].
  by rewrite sort_desc_perm, length_fmap.
Qed.

Lemma identify_elem_of features f :
  with_score f ∈ identify_potential_requirements features
  ↔ f ∈ features ∧ 3 < score_of f.
Proof.
  unfold identify_potential_requirements.
  rewrite list_elem_of_filter, sort_desc_perm, list_elem_of_fmap. simpl.
  split.
  - intros [Hs (f' & Heq & Hin)]. split; [|done].
    assert (f = f') as -> by (by injection Heq). done.
  - intros [Hin Hs]. split; [done|]. by exists f.
Qed.

End ScorerMore.

(** X17.  Scoring is idempotent: the feature records of the candidates,
    scored again, give the same candidates in the same order. *)
Theorem scorer_is_idempotent (features : list Feature) :
  identify_potential_requirements
    (feature <$> identify_potential_requirements features)
  = identify_potential_requirements features.
Proof.
  set (out := identify_potential_requirements features).
  assert (with_score <$> (feature <$> out) = out) as E.
  { rewrite <-list_fmap_compose. rewrite <-(list_fmap_id out) at 2.
    apply list_fmap_ext. intros n r Hr. simpl.
    apply list_elem_of_lookup_2 in Hr. unfold out in Hr.
    unfold identify_potential_requirements in Hr.
    apply list_elem_of_filter in Hr as [_ Hr].
    rewrite sort_desc_perm in Hr.
    by apply list_elem_of_fmap in Hr as (f & -> & _). }
  unfold identify_potential_requirements at 1. rewrite E.
  rewrite sort_desc_sorted_id.
  - unfold out, identify_potential_requirements.
    by rewrite list_filter_filter_l.
  - unfold out, identify_potential_requirements.
    apply StronglySorted_filter_score, sort_desc_sorted.
Qed.

(** X18.  Matches of two of the three lexicons are enough for a sentence
    to become a candidate, whatever its parse. *)
Theorem two_lexicons_make_a_candidate (features : list Feature) (f : Feature) :
  let t := Str.lower (sentence f) in
  f ∈ features →
  (Str.contains_any requirement_keywords t = true
   ∧ Str.contains_any system_components t = true)
  ∨ (Str.contains_any requirement_keywords t = true
     ∧ Str.contains_any user_roles t = true)
  ∨ (Str.contains_any system_components t = true
     ∧ Str.contains_any user_roles t = true) →
  with_score f ∈ identify_potential_requirements features.
Proof.
  intros t Hin Hlex. apply identify_elem_of. split; [done|].
  rewrite score_of_spec. unfold spec_score. fold t.
  change ["need"; "require"; "must"; "should"; "allow"; "enable"; "access";
          "view"; "book"; "reserve"] with requirement_keywords.
  change ["machine"; "payment"; "reservation"; "notification"; "camera";
          "account"; "feedback"; "review"] with system_components.
  change ["customer"; "client"; "user"; "administrator"; "owner"]
    with user_roles.
  destruct Hlex as [[-> ->]|[[-> ->]|[-> ->]]];
    repeat match goal with |- context [if ?b then _ else _] => destruct b end;
    lia.
Qed.

(** The copula sentence has no verb, modal or triple, but a component and
    a role. *)
Lemma two_lexicons_make_a_candidate_witness :
  room_candidate
  ∈ identify_potential_requirements [features_of room_sentence room_doc].
Proof.
  apply (two_lexicons_make_a_candidate
           [features_of room_sentence room_doc]
           (features_of room_sentence room_doc)).
  - apply list_elem_of_here.
  - right. right. split; vm_compute; reflexivity.
Defined.

(** X19.  A record without any lexicon match and with at most one action
    verb, modal or triple in all is no candidate. *)
Theorem one_signal_is_not_enough (features : list Feature) (f : Feature) :
  let t := Str.lower (sentence f) in
  Str.contains_any requirement_keywords t = false →
  Str.contains_any system_components t = false →
  Str.contains_any user_roles t = false →
  (length (action_verbs f) + length (modals f) + length (svo_patterns f)
   ≤ 1)%nat →
  with_score f ∉ identify_potential_requirements features.
Proof.
  intros t H1 H2 H3 Hone [_ Hs]%identify_elem_of.
  rewrite score_of_spec in Hs. unfold spec_score in Hs. fold t in Hs.
  change ["need"; "require"; "must"; "should"; "allow"; "enable"; "access";
          "view"; "book"; "reserve"] with requirement_keywords in Hs.
  change ["machine"; "payment"; "reservation"; "notification"; "camera";
          "account"; "feedback"; "review"] with system_components in Hs.
  change ["customer"; "client"; "user"; "administrator"; "owner"]
    with user_roles in Hs.
  rewrite H1, H2, H3 in Hs. lia.
Qed.

(** One modal, "will", which is no requirement keyword. *)
Lemma one_signal_is_not_enough_witness :
  with_score
    {| sentence := "Staff will fold the clothes on the table"; verbs := ["fold"];
       action_verbs := []; nouns := ["Staff"; "clothes"; "table"];
       entities := []; svo_patterns := []; modals := ["will"];
       doc := {| tokens := []; noun_chunks := []; ents := [] |} |}
  ∉ identify_potential_requirements
      [{| sentence := "Staff will fold the clothes on the table";
          verbs := ["fold"]; action_verbs := [];
          nouns := ["Staff"; "clothes"; "table"];
          entities := []; svo_patterns := []; modals := ["will"];
          doc := {| tokens := []; noun_chunks := []; ents := [] |} |}].
Proof.
  apply one_signal_is_not_enough; vm_compute; (reflexivity || lia).
Defined.

(** ** Counting through the pipeline *)

(** X20.  The pipeline returns at most one requirement per sentence the
    Segmenter keeps, and [extract_and_format] as many texts as
    [extract_requirements] returns requirements. *)
Theorem pipeline_never_adds_requirements
    (sent_tokenize : string → list string) (nlp : string → option Doc)
    (description : string) :
  match extract_requirements sent_tokenize nlp description,
        extract_and_format sent_tokenize nlp description with
  | Some classified, Some formatted =>
      (length classified
       ≤ length (preprocess_text sent_tokenize description))%nat
      ∧ (length (preprocess_text sent_tokenize description)
         ≤ length (sent_tokenize (Str.collapse_ws description)))%nat
      ∧ length formatted = length classified
  | None, None => True
  | _, _ => False
  end.
Proof.
  unfold extract_and_format.
  destruct (extract_requirements sent_tokenize nlp description)
    as [classified|] eqn:E; simpl; [|done].
  pose proof (extract_requirements_stakeholders _ _ _ _ E) as Hall.
  unfold extract_requirements in E.
  destruct (extract_features nlp _) as [features|] eqn:Ef; simpl in E; [|done].
  apply classify_requirements_Some in E as ->.
  apply length_mapM in Ef. split_and!.
  - rewrite length_fmap, Ef. unfold refine_requirements, formulate_requirements.
    rewrite length_fmap.
    destruct (unique_reqs_go_spec ∅
                (formulate_one <$> identify_potential_requirements features))
      as (_ & _ & Hsub & _).
    apply sublist_length in Hsub. rewrite length_fmap in Hsub.
    pose proof (identify_length features). unfold unique_reqs. lia.
  - unfold preprocess_text. apply length_filter.
  - by rewrite (format_grouped_perm _ Hall), length_fmap.
Qed.

(** ** Triples and actors *)

(** X21.  The subject of every subject-verb-object triple of a parsed
    sentence is one of the actors the Formulator finds in it, and its
    object is the text of a token that is a direct or prepositional object:
    a record with a triple has an actor. *)
Theorem triples_have_actors (s : string) (d : Doc) :
  Forall (λ triple,
      triple.1.1 ∈ actors_of d
      ∧ ∃ token, token ∈ tokens d
                 ∧ dep_ token ∈ ["dobj"; "pobj"]
                 ∧ triple.2 = text token)
    (svo_patterns (features_of s d)).
Proof.
  apply Forall_forall. intros triple. simpl.
  intros (chunk & Hin & Hchunk)%list_elem_of_bind.
  unfold svo_of_chunk in Hin. case_bool_decide as Hsubj; [|by apply elem_of_nil in Hin].
  destruct Hsubj as [Hsubj _].
  apply list_elem_of_fmap in Hin
    as (token & -> & [[_ Hdep] Htoken]%list_elem_of_filter).
  simpl. split.
  - unfold actors_of. apply list_elem_of_fmap_2.
    by apply list_elem_of_filter.
  - by exists token.
Qed.
